(** * MongoAlchemy: the document layer (mongoalchemy/document.py)

    A shallow embedding of [Document], [DocumentField] and [Index], and the
    properties of construction, assignment, reading, wrap/unwrap, commit and
    the index builder.

    - Python dicts ([kwargs], the instance [__dict__], stored documents) are
      finite maps [gmap string _]; a loop over a dict visits [map_to_list]
      of it.  The schema of a class, [get_fields()], is kept as an
      association list in the order [iteritems()] yields it, since that
      order decides which failure of the constructor is raised first.
    - Methods that mutate [self] return the outcome together with the
      instance as the call leaves it, also when they raise.
    - A class is identified by its name: [value.__class__ == self.type]
      compares names.
    - [mongoalchemy/fields.py] is not among the sources: a leaf field is a
      record of its options and of the four functions of its codec.
    - The query facade [Document.f] is outside the model, but for the
      failure it answers with when [unwrap] meets the key [f]; so are
      attributes inherited from [object], class attributes other than
      Fields and Indexes, and a Field declared under the name [f]. *)

From Stdlib Require Import ZArith String List Bool.
From stdpp Require Import base option list strings gmap.

Local Open Scope string_scope.
Local Open Scope list_scope.
Set Warnings "-register-all".

(** ** Values *)

(** Python values that flow through the document layer.  [VDict] is a plain
    stored document; [VInstance c d] is an instance of the Document class
    named [c] whose [__dict__] is [d]. *)
Inductive value : Type :=
  | VNone
  | VBool (b : bool)
  | VInt (z : Z)
  | VStr (s : string)
  | VObjectId (oid : Z)
  | VDict (items : gmap string value)
  | VInstance (cls : string) (dict : gmap string value).

(** ** Exceptions and results *)

Inductive exn : Type :=
  | MissingValueException (name : string)
  | ExtraValueException (key : string)
  | FieldNotRetrieved
  | BadValueException
  | BadIndexException
  | AttributeError
  | CollectionError (code : Z)
  | BadQueryException.

Inductive result (A : Type) : Type :=
  | Ok (a : A)
  | Raise (e : exn).
Arguments Ok {A} a.
Arguments Raise {A} e.

Definition bind {A B} (r : result A) (k : A -> result B) : result B :=
  match r with
  | Ok a => k a
  | Raise e => Raise e
  end.

Notation "'do' x <- r ; k" := (bind r (fun x => k))
  (at level 10, x name, r at level 100, k at level 200).

Definition is_ok {A} (r : result A) : bool :=
  match r with Ok _ => true | Raise _ => false end.

(** ** Index *)

(** [pymongo.ASCENDING] and [pymongo.DESCENDING]. *)
Definition ASCENDING : Z := 1.
Definition DESCENDING : Z := (-1).

Record Index : Type := mkIndex {
  components : list (string * Z);
  __unique : bool;
  __drop_dups : bool
}.

(** ** Fields and classes *)

(** Modelled from the spec: the base class [Field] of mongoalchemy/fields.py,
    which is not part of the sources.  A field carries [required], [auto] and
    an optional [default] (absent when [hasattr(field, 'default')] is false);
    a leaf field supplies the two validity predicates and the two conversions,
    and its [wrap]/[unwrap] validate first (spec 4.2). *)
Record FieldOptions : Type := mkOptions {
  required : bool;
  auto : bool;
  default : option value
}.

Record Codec : Type := mkCodec {
  codec_is_valid_wrap : value -> bool;
  codec_is_valid_unwrap : value -> bool;
  codec_wrap : value -> value;
  codec_unwrap : value -> value
}.

(** A Document class: its name, the mapping [get_fields()] in iteration
    order, the explicit [_collection_name] if any, and the [Index] attributes
    in the order [dir(cls)] lists them. *)
Record DocClass_ (F : Type) : Type := mkClass {
  class_name : string;
  fields : list (string * F);
  _collection_name : option string;
  indexes : list (string * Index)
}.
Arguments mkClass {F} _ _ _ _.
Arguments class_name {F} _.
Arguments fields {F} _.
Arguments _collection_name {F} _.
Arguments indexes {F} _.

Inductive Field : Type :=
  | LeafField (opts : FieldOptions) (codec : Codec)
  | DocumentField (opts : FieldOptions) (type : DocClass_ Field).

Abbreviation DocClass := (DocClass_ Field).

Definition options (f : Field) : FieldOptions :=
  match f with
  | LeafField o _ => o
  | DocumentField o _ => o
  end.

(** [getattr(cls, name)] restricted to Field attributes: the entry of
    [get_fields()] under [name]. *)
Fixpoint get_field {F : Type} (name : string) (fs : list (string * F)) : option F :=
  match fs with
  | [] => None
  | (n, f) :: fs' => if String.eqb n name then Some f else get_field name fs'
  end.

(** [get_collection_name]: the explicit override, else the class name. *)
Definition get_collection_name (cls : DocClass) : string :=
  match _collection_name cls with
  | None => class_name cls
  | Some n => n
  end.

Definition get_indexes (cls : DocClass) : list Index := map snd (indexes cls).

(** What an attribute lookup can produce: a stored value, or one of the
    objects living on the class. *)
Inductive attr : Type :=
  | AValue (v : value)
  | AField (f : Field)
  | AIndex (i : Index)
  | AMethod (name : string).

(** The non-Field, non-Index names defined in the body of [Document]. *)
Definition Document_methods : list string :=
  [ "object_mapping"; "__init__"; "__setattr__"; "__getattribute__"; "f";
    "get_fields"; "class_name"; "get_collection_name"; "get_indexes";
    "commit"; "wrap"; "unwrap" ].

Definition class_getattr (cls : DocClass) (name : string) : option attr :=
  match get_field name (fields cls) with
  | Some f => Some (AField f)
  | None =>
      match get_field name (indexes cls) with
      | Some i => Some (AIndex i)
      | None =>
          if existsb (String.eqb name) Document_methods
          then Some (AMethod name) else None
      end
  end.

(** ** Validation *)

(** [DocumentField.is_valid_wrap]: [value.__class__ == self.type]; classes
    are identified by their names. *)
Definition is_valid_wrap (f : Field) (v : value) : bool :=
  match f with
  | LeafField _ c => codec_is_valid_wrap c v
  | DocumentField _ T =>
      match v with
      | VInstance c _ => String.eqb c (class_name T)
      | _ => false
      end
  end.

Definition validate_wrap (f : Field) (v : value) : result unit :=
  if is_valid_wrap f v then Ok tt else Raise BadValueException.

(** ** Document: assignment, reading, construction *)

(** The [__dict__] of an instance. *)
Abbreviation obj := (gmap string value).

(** [Document.__setattr__]; the second component is the instance afterwards. *)
Definition __setattr__ (cls : DocClass) (self : obj) (name : string) (v : value)
  : result unit * obj :=
  match class_getattr cls name with
  | Some (AField field) =>
      match validate_wrap field v with
      | Raise e => (Raise e, self)
      | Ok _ => (Ok tt, <[name := v]> self)
      end
  | _ => (Raise AttributeError, self)
  end.

(** [object.__getattribute__]: the instance [__dict__] first, then the class. *)
Definition object__getattribute__ (cls : DocClass) (self : obj) (name : string)
  : result attr :=
  match self !! name with
  | Some v => Ok (AValue v)
  | None =>
      match class_getattr cls name with
      | Some a => Ok a
      | None => Raise AttributeError
      end
  end.

(** [Document.__getattribute__]. *)
Definition __getattribute__ (cls : DocClass) (self : obj) (name : string)
  : result attr :=
  do a <- object__getattribute__ cls self name;
  match a with
  | AField _ => Raise AttributeError
  | _ => Ok a
  end.

(** One iteration of the first loop of [Document.__init__]. *)
Definition init_field (cls : DocClass) (kwargs : gmap string value)
    (self : obj) (nf : string * Field) : result unit * obj :=
  let (name, field) := nf in
  match kwargs !! name with
  | Some v => __setattr__ cls self name v
  | None =>
      if auto (options field) then (Ok tt, self)
      else if required (options field) then (Raise (MissingValueException name), self)
      else match default (options field) with
           | Some d => __setattr__ cls self name d
           | None => (Ok tt, self)
           end
  end.

Fixpoint init_fields (cls : DocClass) (kwargs : gmap string value)
    (fs : list (string * Field)) (self : obj) : result unit * obj :=
  match fs with
  | [] => (Ok tt, self)
  | nf :: fs' =>
      match init_field cls kwargs self nf with
      | (Ok _, self') => init_fields cls kwargs fs' self'
      | (Raise e, self') => (Raise e, self')
      end
  end.

(** The second loop: [for k in kwargs: if k not in fields: raise]. *)
Fixpoint check_extra (fs : list (string * Field)) (keys : list string) : result unit :=
  match keys with
  | [] => Ok tt
  | k :: keys' =>
      match get_field k fs with
      | None => Raise (ExtraValueException k)
      | Some _ => check_extra fs keys'
      end
  end.

(** [Document.__init__], run on the instance [self]. *)
Definition __init__ (cls : DocClass) (self : obj) (kwargs : gmap string value)
  : result unit * obj :=
  match init_fields cls kwargs (fields cls) self with
  | (Ok _, self') => (check_extra (fields cls) (map fst (map_to_list kwargs)), self')
  | (Raise e, self') => (Raise e, self')
  end.

(** Calling the class with keyword arguments: a fresh instance, initialised. *)
Definition new (cls : DocClass) (kwargs : gmap string value) : result obj :=
  match __init__ cls ∅ kwargs with
  | (Ok _, self) => Ok self
  | (Raise e, _) => Raise e
  end.

(** ** wrap *)

Section WrapLoop.
Variable field_wrap : Field -> value -> result value.
Variable self : obj.

(** The loop of [Document.wrap].  It runs over [dir(cls)], and only a name
    bound to a Field can add an entry; a name whose read on the instance
    raises AttributeError (an unset field) is skipped.  The result is a
    dict and every failure is a BadValueException, so the order of the
    visit is not observable; the fields are visited in schema order. *)
Fixpoint wrap_fields (fs : list (string * Field)) (res : gmap string value)
  : result (gmap string value) :=
  match fs with
  | [] => Ok res
  | (name, field) :: fs' =>
      match self !! name with
      | None => wrap_fields fs' res
      | Some v => do w <- field_wrap field v; wrap_fields fs' (<[name := w]> res)
      end
  end.
End WrapLoop.

(** [Field.wrap] for a leaf and [DocumentField.wrap], which calls
    [self.type.wrap(value)]. *)
Fixpoint Field_wrap (f : Field) (v : value) {struct f} : result value :=
  match f with
  | LeafField _ c =>
      do _ <- validate_wrap f v;
      Ok (codec_wrap c v)
  | DocumentField _ T =>
      do _ <- validate_wrap f v;
      match v with
      | VInstance _ self =>
          do res <- wrap_fields Field_wrap self (fields T) ∅;
          Ok (VDict res)
      | _ => Raise AttributeError
      end
  end.

(** [Document.wrap]. *)
Definition Document_wrap (cls : DocClass) (self : obj) : result (gmap string value) :=
  wrap_fields Field_wrap self (fields cls) ∅.

(** ** unwrap *)

Section UnwrapLoop.
Variable field_unwrap : Field -> value -> result value.
Variable fs : list (string * Field).

(** [getattr(cls, k).unwrap(v)].  A name bound to a Field unwraps with that
    field.  The name [f] is bound to the query facade of
    mongoalchemy/query.py, which is not among the sources: asked for
    [unwrap], which names no field, it raises its BadQueryException.  Any
    other name is no attribute of the class, or an attribute without an
    [unwrap] (a method, an Index): AttributeError.  The list searched is
    [get_fields()], which never holds [f]; a class that declares a Field of
    its own under the name [f] is outside the model. *)
Definition getattr_unwrap (k : string) (v : value) : result value :=
  (fix find (l : list (string * Field)) : result value :=
     match l with
     | [] => Raise (if String.eqb k "f" then BadQueryException else AttributeError)
     | (n, f) :: l' => if String.eqb n k then field_unwrap f v else find l'
     end) fs.

(** The loop of [Document.unwrap] filling [params]. *)
Fixpoint unwrap_items (kvs : list (string * value)) (params : gmap string value)
  : result (gmap string value) :=
  match kvs with
  | [] => Ok params
  | (k, v) :: kvs' =>
      do u <- getattr_unwrap k v; unwrap_items kvs' (<[k := u]> params)
  end.
End UnwrapLoop.

Section UnwrapClass.
Variable field_unwrap : Field -> value -> result value.

Definition unwrap_with (cls : DocClass) (o : gmap string value) : result obj :=
  do params <- unwrap_items field_unwrap (fields cls) (map_to_list o) ∅;
  new cls params.
End UnwrapClass.

(** [Field.unwrap] for a leaf and [DocumentField.unwrap]: [validate_unwrap]
    runs the whole unwrap of the nested type and turns any failure into
    BadValueException, then the unwrap is done again. *)
Fixpoint Field_unwrap (f : Field) (v : value) {struct f} : result value :=
  match f with
  | LeafField _ c =>
      if codec_is_valid_unwrap c v then Ok (codec_unwrap c v) else Raise BadValueException
  | DocumentField _ T =>
      let type_unwrap :=
        match v with
        | VDict items =>
            do self <- unwrap_with Field_unwrap T items;
            Ok (VInstance (class_name T) self)
        | _ => Raise AttributeError
        end in
      if is_ok type_unwrap then type_unwrap else Raise BadValueException
  end.

(** [Document.unwrap]. *)
Definition Document_unwrap (cls : DocClass) (o : gmap string value) : result obj :=
  unwrap_with Field_unwrap cls o.

(** ** commit *)

(** The collection is an external collaborator.  It is modelled by the calls
    it receives: its answer to a call is any function of the calls made so
    far, and the state of the database is that history. *)
Inductive call : Type :=
  | EnsureIndex (collection : string) (comps : list (string * Z)) (unique drop_dups : bool)
  | Save (collection : string) (doc : gmap string value).

Section Commit.
Variable respond : list call -> call -> result value.

Definition invoke (c : call) (db : list call) : result value * list call :=
  (respond db c, db ++ [c]).

(** [Index.ensure]. *)
Definition ensure (self : Index) (collection : string) (db : list call)
  : result unit * list call :=
  match invoke (EnsureIndex collection (components self) (__unique self)
                  (__drop_dups self)) db with
  | (Ok _, db') => (Ok tt, db')
  | (Raise e, db') => (Raise e, db')
  end.

Fixpoint ensure_all (ixs : list Index) (collection : string) (db : list call)
  : result unit * list call :=
  match ixs with
  | [] => (Ok tt, db)
  | index :: ixs' =>
      match ensure index collection db with
      | (Ok _, db') => ensure_all ixs' collection db'
      | (Raise e, db') => (Raise e, db')
      end
  end.

(** [Document.commit]; the result carries the instance and the database
    as they are when the call returns or raises. *)
Definition commit (cls : DocClass) (self : obj) (db : list call)
  : result unit * (obj * list call) :=
  let collection := get_collection_name cls in
  match ensure_all (get_indexes cls) collection db with
  | (Raise e, db1) => (Raise e, (self, db1))
  | (Ok _, db1) =>
      match Document_wrap cls self with
      | Raise e => (Raise e, (self, db1))
      | Ok doc =>
          match invoke (Save collection doc) db1 with
          | (Raise e, db2) => (Raise e, (self, db2))
          | (Ok id, db2) =>
              let (r, self') := __setattr__ cls self "_id" id in
              (r, (self', db2))
          end
      end
  end.
End Commit.

(** ** The Index builder *)

(** Index objects are mutated in place and handed back by their own methods,
    so they live in a store and are named by their address. *)
Abbreviation heap := (gmap nat Index).

Definition Index__init__ (h : heap) : nat * heap :=
  let self := fresh (dom h) in
  (self, <[self := mkIndex [] false false]> h).

Definition ascending (self : nat) (name : string) (h : heap) : nat * heap :=
  (self, alter (fun i => mkIndex (components i ++ [(name, ASCENDING)])
                           (__unique i) (__drop_dups i)) self h).

Definition descending (self : nat) (name : string) (h : heap) : nat * heap :=
  (self, alter (fun i => mkIndex (components i ++ [(name, DESCENDING)])
                           (__unique i) (__drop_dups i)) self h).

Definition unique (self : nat) (drop_dups : bool) (h : heap) : nat * heap :=
  (self, alter (fun i => mkIndex (components i) true drop_dups) self h).

(** A fluent call, and a chain of them, each made on what the previous one
    returned. *)
Inductive fluent : Type :=
  | Ascending (name : string)
  | Descending (name : string)
  | Unique (drop_dups : bool).

Definition call_fluent (c : fluent) (self : nat) (h : heap) : nat * heap :=
  match c with
  | Ascending name => ascending self name h
  | Descending name => descending self name h
  | Unique d => unique self d h
  end.

Fixpoint chain (cs : list fluent) (self : nat) (h : heap) : nat * heap :=
  match cs with
  | [] => (self, h)
  | c :: cs' => let (r, h') := call_fluent c self h in chain cs' r h'
  end.

(** What a chain of fluent calls adds up to, in the words of the spec: the
    components appended in order, the index marked unique once [unique] was
    called, the duplicate handling as the last [unique] call set it. *)
Definition component_of (c : fluent) : list (string * Z) :=
  match c with
  | Ascending name => [(name, ASCENDING)]
  | Descending name => [(name, DESCENDING)]
  | Unique _ => []
  end.

Fixpoint unique_after (cs : list fluent) (u : bool) : bool :=
  match cs with
  | [] => u
  | Unique _ :: cs' => unique_after cs' true
  | _ :: cs' => unique_after cs' u
  end.

Fixpoint drop_dups_after (cs : list fluent) (d : bool) : bool :=
  match cs with
  | [] => d
  | Unique d' :: cs' => drop_dups_after cs' d'
  | _ :: cs' => drop_dups_after cs' d
  end.

(** ** Example classes *)

Definition is_str (v : value) : bool := match v with VStr _ => true | _ => false end.
Definition is_int (v : value) : bool := match v with VInt _ => true | _ => false end.
Definition is_oid (v : value) : bool := match v with VObjectId _ => true | _ => false end.

Definition StringField (o : FieldOptions) : Field :=
  LeafField o (mkCodec is_str is_str id id).
Definition IntField (o : FieldOptions) : Field :=
  LeafField o (mkCodec is_int is_int id id).

(** Modelled from the spec: [ObjectIdField] of mongoalchemy/fields.py, the
    auto-generated identifier; [Document] declares it with [required=False]. *)
Definition ObjectIdField (req : bool) : Field :=
  LeafField (mkOptions req true None) (mkCodec is_oid is_oid id id).

Definition _id : string * Field := ("_id", ObjectIdField false).

(** The record of spec section 8: a required [name], an [age] defaulting to 0.
    The fields are listed in the order a CPython 2 dict with these three keys
    is iterated (slots 2, 3 and 5 of its table). *)
Definition Person : DocClass :=
  mkClass "Person"
    [ ("age", IntField (mkOptions false false (Some (VInt 0))));
      _id;
      ("name", StringField (mkOptions true false None)) ]
    None [].

(** A class whose document holds a nested [Person], with two indexes. *)
Definition Team : DocClass :=
  mkClass "Team"
    [ _id;
      ("lead", DocumentField (mkOptions true false None) Person);
      ("title", StringField (mkOptions true false None)) ]
    (Some "teams")
    [ ("by_lead", mkIndex [("lead", DESCENDING); ("title", ASCENDING)] false false);
      ("by_title", mkIndex [("title", ASCENDING)] true false) ].

Definition ada : obj := {[ "name" := VStr "Ada"; "age" := VInt 36 ]}.

Definition ada_wrapped : gmap string value :=
  {[ "name" := VStr "Ada"; "age" := VInt 36 ]}.

Definition core_team : obj :=
  {[ "title" := VStr "core"; "lead" := VInstance "Person" ada;
     "_id" := VObjectId 7 ]}.


(** ** What the constructor does with one declared field *)

(** The value the first loop of [__init__] assigns for a field, if any: the
    keyword argument, else the default of a field neither auto nor required. *)
Definition assigned (kwargs : gmap string value) (nf : string * Field) : option value :=
  match kwargs !! nf.1 with
  | Some v => Some v
  | None =>
      if auto (options nf.2) then None
      else if required (options nf.2) then None
      else default (options nf.2)
  end.

(** A required field, not auto, with no keyword argument. *)
Definition missing_required (kwargs : gmap string value) (nf : string * Field) : bool :=
  match kwargs !! nf.1 with
  | Some _ => false
  | None => negb (auto (options nf.2)) && required (options nf.2)
  end.

Definition assignment_valid (kwargs : gmap string value) (nf : string * Field) : bool :=
  match assigned kwargs nf with
  | Some v => is_valid_wrap nf.2 v
  | None => true
  end.

(** Every value the constructor would assign passes its field's validation. *)
Definition assignments_valid (cls : DocClass) (kwargs : gmap string value) : bool :=
  forallb (assignment_valid kwargs) (fields cls).

(** No required, non-auto field lacks a keyword argument. *)
Definition none_missing (cls : DocClass) (kwargs : gmap string value) : bool :=
  forallb (fun nf => negb (missing_required kwargs nf)) (fields cls).

(** [get_fields()] is a dict: no name occurs twice. *)
Definition unique_names (cls : DocClass) : Prop := NoDup (fields cls).*1.

(** ** Validly built instances and lawful codecs *)

(** A field may be left unset by the constructor: it is auto, or neither
    required nor given a default. *)
Definition unset_ok (o : FieldOptions) : bool :=
  auto o || (negb (required o) && match default o with None => true | Some _ => false end).

Definition is_some {A : Type} (x : option A) : bool :=
  match x with Some _ => true | None => false end.

Section ValidDict.
Variable valid : Field -> value -> bool.

Definition valid_slot (self : obj) (nf : string * Field) : bool :=
  let (n, f) := nf in
  match self !! n with
  | Some v => valid f v
  | None => unset_ok (options f)
  end.

(** Every attribute names a declared field; every declared field holds a
    valid value or may be unset. *)
Definition valid_dict (fs : list (string * Field)) (self : obj) : bool :=
  forallb (fun k => is_some (get_field k fs)) (map fst (map_to_list self))
  && forallb (valid_slot self) fs.
End ValidDict.

(** The values that assignment through [__setattr__] lets into an instance,
    nested instances being validly built themselves. *)
Fixpoint valid_value (f : Field) (v : value) {struct f} : bool :=
  match f with
  | LeafField _ c => codec_is_valid_wrap c v
  | DocumentField _ T =>
      match v with
      | VInstance c self =>
          String.eqb c (class_name T) && valid_dict valid_value (fields T) self
      | _ => false
      end
  end.

Definition valid_instance (cls : DocClass) (self : obj) : bool :=
  valid_dict valid_value (fields cls) self.

(** All declared fields hold a value. *)
Definition all_set (cls : DocClass) (self : obj) : bool :=
  forallb (fun nf : string * Field => is_some (self !! nf.1)) (fields cls).

(** The contract of a leaf codec (spec 4.2): what [wrap] produces from a
    valid value is accepted by [unwrap] and gives the value back. *)
Definition codec_lawful (c : Codec) : Prop :=
  forall v, codec_is_valid_wrap c v = true ->
    codec_is_valid_unwrap c (codec_wrap c v) = true
    /\ codec_unwrap c (codec_wrap c v) = v.

Fixpoint lawful (f : Field) : Prop :=
  match f with
  | LeafField _ c => codec_lawful c
  | DocumentField _ T =>
      NoDup (fields T).*1
      /\ (fix all (fs : list (string * Field)) : Prop :=
            match fs with
            | [] => True
            | (_, g) :: fs' => lawful g /\ all fs'
            end) (fields T)
  end.

(** A class whose field names are distinct and whose leaf codecs, at every
    depth, are lawful. *)
Definition lawful_class (cls : DocClass) : Prop :=
  lawful (DocumentField (mkOptions false false None) cls).

(** ** An example store *)

Definition ensure_call (collection : string) (ix : Index) : call :=
  EnsureIndex collection (components ix) (__unique ix) (__drop_dups ix).

(** A store that accepts every call and numbers the documents it saves. *)
Definition accepting (db : list call) (c : call) : result value :=
  match c with
  | EnsureIndex _ _ _ _ => Ok VNone
  | Save _ _ => Ok (VObjectId (Z.of_nat (length db)))
  end.

(** A store whose [save] fails. *)
Definition refusing (db : list call) (c : call) : result value :=
  match c with
  | EnsureIndex _ _ _ _ => Ok VNone
  | Save _ _ => Raise (CollectionError 11000)
  end.

Definition new_team : obj :=
  {[ "title" := VStr "core"; "lead" := VInstance "Person" ada ]}.

(** ** Further vocabulary for the constructor *)

(** Every keyword names a declared field. *)
Definition keys_declared (cls : DocClass) (kwargs : gmap string value) : bool :=
  forallb (fun k => is_some (get_field k (fields cls))) (map fst (map_to_list kwargs)).

(** Every value the constructor would assign is a validly built value of its
    field: for a nested document, an instance that is validly built itself. *)
Definition assignments_built (cls : DocClass) (kwargs : gmap string value) : bool :=
  forallb (fun nf => match assigned kwargs nf with
                     | Some v => valid_value nf.2 v
                     | None => true
                     end) (fields cls).

(** ** Further vocabulary for unwrap *)

(** Every key of a stored document names a declared field whose [unwrap]
    accepts the stored value. *)
Definition stored_ok (cls : DocClass) (o : gmap string value) : bool :=
  forallb (fun kv : string * value =>
             match get_field kv.1 (fields cls) with
             | Some f => is_ok (Field_unwrap f kv.2)
             | None => false
             end) (map_to_list o).

(** The keyword arguments [Document.unwrap] builds from such a document. *)
Definition unwrapped (cls : DocClass) (o : gmap string value) : gmap string value :=
  map_imap (fun k v => match get_field k (fields cls) with
                       | Some f => match Field_unwrap f v with
                                   | Ok u => Some u
                                   | Raise _ => None
                                   end
                       | None => None
                       end) o.

(** A schema whose field names are distinct at every depth and whose
    declared defaults are validly built values. *)
Fixpoint well_formed (f : Field) : Prop :=
  match f with
  | LeafField _ _ => True
  | DocumentField _ T =>
      NoDup (fields T).*1
      /\ (fix all (fs : list (string * Field)) : Prop :=
            match fs with
            | [] => True
            | (_, g) :: fs' =>
                (well_formed g
                 /\ match default (options g) with
                    | Some d => is_valid_wrap g d = true -> valid_value g d = true
                    | None => True
                    end)
                /\ all fs'
            end) (fields T)
  end.

Definition well_formed_class (cls : DocClass) : Prop :=
  well_formed (DocumentField (mkOptions false false None) cls).

(** A store that refuses to build unique indexes. *)
Definition no_unique (db : list call) (c : call) : result value :=
  match c with
  | EnsureIndex _ _ true _ => Raise (CollectionError 85)
  | EnsureIndex _ _ false _ => Ok VNone
  | Save _ _ => Ok (VObjectId (Z.of_nat (length db)))
  end.

(** The collection a call is made on. *)
Definition call_collection (c : call) : string :=
  match c with
  | EnsureIndex collection _ _ _ => collection
  | Save collection _ => collection
  end.

(** [Index.ensure] called on an Index object of the store: it reads the
    object, asks the collection, and hands the object back. *)
Definition ensure_at (respond : list call -> call -> result value)
    (self : nat) (collection : string) (h : heap) (db : list call)
  : result nat * list call :=
  match h !! self with
  | Some ix =>
      match ensure respond ix collection db with
      | (Ok _, db') => (Ok self, db')
      | (Raise e, db') => (Raise e, db')
      end
  | None => (Raise AttributeError, db)
  end.

(** * Properties *)

(** ** Attribute lookup on the class *)

Lemma get_field_Some {F : Type} (name : string) (fs : list (string * F)) (f : F) :
  get_field name fs = Some f -> (name, f) ∈ fs.
Proof.
  induction fs as [|[n g] fs IH]; simpl; [discriminate|].
  destruct (String.eqb_spec n name) as [->|Hne].
  - intros [= ->]. left.
  - intros H. right. auto.
Qed.

Lemma get_field_None {F : Type} (name : string) (fs : list (string * F)) :
  get_field name fs = None <-> name ∉ fs.*1.
Proof.
  induction fs as [|[n g] fs IH]; simpl.
  - split; [intros _; apply not_elem_of_nil | done].
  - destruct (String.eqb_spec n name) as [->|Hne].
    + split; [discriminate|]. intros H. exfalso. apply H. left.
    + rewrite IH, not_elem_of_cons. simpl. split; [by intros H; split|by intros [_ H]].
Qed.

Lemma get_field_elem_of {F : Type} (name : string) (fs : list (string * F)) (f : F) :
  (name, f) ∈ fs -> exists g, get_field name fs = Some g /\ (name, g) ∈ fs.
Proof.
  intros Hin. destruct (get_field name fs) as [g|] eqn:E.
  - exists g. split; [done|]. by apply get_field_Some.
  - apply get_field_None in E. exfalso. apply E.
    apply list_elem_of_fmap. by exists (name, f).
Qed.

Lemma get_field_NoDup {F : Type} (name : string) (fs : list (string * F)) (f : F) :
  NoDup fs.*1 -> (name, f) ∈ fs -> get_field name fs = Some f.
Proof.
  induction fs as [|[n g] fs IH]; simpl; intros Hnd Hin.
  - by apply elem_of_nil in Hin.
  - apply NoDup_cons in Hnd as [Hn Hnd].
    apply elem_of_cons in Hin as [[= <- <-]|Hin].
    + by rewrite String.eqb_refl.
    + destruct (String.eqb_spec n name) as [->|Hne]; [|auto].
      exfalso. apply Hn. apply list_elem_of_fmap. by exists (name, f).
Qed.

Lemma class_getattr_field (cls : DocClass) (name : string) (f : Field) :
  get_field name (fields cls) = Some f -> class_getattr cls name = Some (AField f).
Proof. unfold class_getattr. by intros ->. Qed.

Lemma class_getattr_AField (cls : DocClass) (name : string) (f : Field) :
  class_getattr cls name = Some (AField f) -> get_field name (fields cls) = Some f.
Proof.
  unfold class_getattr. destruct (get_field name (fields cls)); [by intros [= ->]|].
  destruct (get_field name (indexes cls)); [discriminate|].
  by destruct (existsb _ _).
Qed.

(** ** Assignment *)

Lemma setattr_valid (cls : DocClass) (self : obj) (name : string) (f : Field) (v : value) :
  get_field name (fields cls) = Some f -> is_valid_wrap f v = true ->
  __setattr__ cls self name v = (Ok tt, <[name := v]> self).
Proof.
  intros Hf Hv. unfold __setattr__, validate_wrap.
  by rewrite (class_getattr_field _ _ _ Hf), Hv.
Qed.

Lemma setattr_cases (cls : DocClass) (self : obj) (name : string) (v : value) :
  __setattr__ cls self name v = (Ok tt, <[name := v]> self) \/
  __setattr__ cls self name v = (Raise BadValueException, self) \/
  __setattr__ cls self name v = (Raise AttributeError, self).
Proof.
  unfold __setattr__, validate_wrap.
  destruct (class_getattr cls name) as [[ | f | | ]|]; auto.
  destruct (is_valid_wrap f v); auto.
Qed.

(** C3. Assigning to a declared field a value that its [validate_wrap]
    rejects raises BadValueException and leaves the instance, that field and
    every other one, exactly as it was. *)
Theorem setattr_invalid_keeps_instance
    (cls : DocClass) (self : obj) (name : string) (field : Field) (v : value) :
  get_field name (fields cls) = Some field ->
  validate_wrap field v = Raise BadValueException ->
  __setattr__ cls self name v = (Raise BadValueException, self).
Proof.
  intros Hf Hv. unfold __setattr__.
  by rewrite (class_getattr_field _ _ _ Hf), Hv.
Qed.

Lemma setattr_invalid_keeps_instance_witness :
  __setattr__ Person ada "age" (VStr "old") = (Raise BadValueException, ada).
Proof.
  apply (setattr_invalid_keeps_instance Person ada "age"
           (IntField (mkOptions false false (Some (VInt 0)))) (VStr "old"));
    reflexivity.
Defined.

(** ** Reading *)

Lemma getattribute_never_field (cls : DocClass) (self : obj) (name : string) (f : Field) :
  __getattribute__ cls self name <> Ok (AField f).
Proof.
  unfold __getattribute__, bind.
  destruct (object__getattribute__ cls self name) as [[ | | | ]|]; discriminate.
Qed.

Lemma getattribute_unset_field (cls : DocClass) (self : obj) (name : string) (f : Field) :
  get_field name (fields cls) = Some f -> self !! name = None ->
  __getattribute__ cls self name = Raise AttributeError.
Proof.
  intros Hf Hs. unfold __getattribute__, object__getattribute__.
  by rewrite Hs, (class_getattr_field _ _ _ Hf).
Qed.

Lemma getattribute_not_FieldNotRetrieved (cls : DocClass) (self : obj) (name : string) :
  __getattribute__ cls self name <> Raise FieldNotRetrieved.
Proof.
  unfold __getattribute__, object__getattribute__, bind.
  destruct (self !! name); [discriminate|].
  destruct (class_getattr cls name) as [[ | | | ]|]; discriminate.
Qed.

(** C4. Reading never hands out the Field descriptor, but the failure of a
    read of an unset field is AttributeError and never FieldNotRetrieved:
    the partial document [{"name": "Ada"}] unwraps to a [Person] whose [_id]
    was not retrieved, and reading [_id] raises AttributeError. *)
Theorem read_unset_field_raises_AttributeError :
  Document_unwrap Person {[ "name" := VStr "Ada" ]}
    = Ok {[ "name" := VStr "Ada"; "age" := VInt 0 ]}
  /\ __getattribute__ Person {[ "name" := VStr "Ada"; "age" := VInt 0 ]} "_id"
      = Raise AttributeError
  /\ (forall cls self name field,
        get_field name (fields cls) = Some field -> self !! name = None ->
        __getattribute__ cls self name = Raise AttributeError)
  /\ (forall cls self name, __getattribute__ cls self name <> Raise FieldNotRetrieved)
  /\ (forall cls self name f, __getattribute__ cls self name <> Ok (AField f)).
Proof.
  split; [by vm_compute|]. split; [by vm_compute|]. split; [|split].
  - apply getattribute_unset_field.
  - apply getattribute_not_FieldNotRetrieved.
  - apply getattribute_never_field.
Qed.

(** ** Construction *)

Lemma init_field_cases (cls : DocClass) (kwargs : gmap string value) (self : obj)
    (name : string) (field : Field) :
  get_field name (fields cls) = Some field ->
  init_field cls kwargs self (name, field) =
    match assigned kwargs (name, field) with
    | Some v =>
        if is_valid_wrap field v then (Ok tt, <[name := v]> self)
        else (Raise BadValueException, self)
    | None =>
        if missing_required kwargs (name, field)
        then (Raise (MissingValueException name), self)
        else (Ok tt, self)
    end.
Proof.
  intros Hf. unfold init_field, assigned, missing_required, __setattr__, validate_wrap.
  rewrite (class_getattr_field _ _ _ Hf). simpl.
  destruct (kwargs !! name) as [v|].
  - by destruct (is_valid_wrap field v).
  - destruct (auto (options field)); [done|].
    destruct (required (options field)); [done|].
    destruct (default (options field)) as [d|]; [|done].
    by destruct (is_valid_wrap field d).
Qed.

(** The three ways the first loop can end. *)
Lemma init_fields_outcome (cls : DocClass) (kwargs : gmap string value)
    (fs : list (string * Field)) :
  (forall name field, (name, field) ∈ fs -> get_field name (fields cls) = Some field) ->
  forall self r self', init_fields cls kwargs fs self = (r, self') ->
    (r = Ok tt /\ forallb (fun nf => negb (missing_required kwargs nf)) fs = true
       /\ forallb (assignment_valid kwargs) fs = true)
    \/ (exists name field, r = Raise (MissingValueException name) /\ (name, field) ∈ fs
          /\ missing_required kwargs (name, field) = true)
    \/ (r = Raise BadValueException /\ forallb (assignment_valid kwargs) fs = false).
Proof.
  induction fs as [|[name field] fs IH]; intros Hfs self r self' Hrun.
  - simpl in Hrun. injection Hrun as <- <-. left. done.
  - cbn [init_fields] in Hrun.
    rewrite (init_field_cases cls kwargs self name field) in Hrun
      by (apply Hfs; left).
    simpl. unfold assignment_valid at 1. unfold assignment_valid at 2. simpl.
    destruct (assigned kwargs (name, field)) as [v|] eqn:Ha.
    + assert (missing_required kwargs (name, field) = false) as Hm.
      { unfold assigned, missing_required in *. simpl in *.
        destruct (kwargs !! name); [done|].
        destruct (auto (options field)); [done|].
        by destruct (required (options field)). }
      rewrite Hm. simpl.
      destruct (is_valid_wrap field v) eqn:Hv.
      * destruct (IH (fun n f H => Hfs n f (list_elem_of_further _ _ _ H)) _ _ _ Hrun)
          as [(-> & H1 & H2)|[(n & f & -> & Hin & Hmiss)|(-> & H2)]].
        -- left. done.
        -- right. left. exists n, f. split; [done|]. split; [by right|done].
        -- right. right. done.
      * injection Hrun as <- <-. right. right. done.
    + destruct (missing_required kwargs (name, field)) eqn:Hm.
      * injection Hrun as <- <-. right. left. exists name, field.
        split; [done|]. split; [left|done].
      * simpl.
        destruct (IH (fun n f H => Hfs n f (list_elem_of_further _ _ _ H)) _ _ _ Hrun)
          as [(-> & H1 & H2)|[(n & f & -> & Hin & Hmiss)|(-> & H2)]].
        -- left. done.
        -- right. left. exists n, f. split; [done|]. split; [by right|done].
        -- right. right. done.
Qed.

Lemma init_fields_class_outcome (cls : DocClass) (kwargs : gmap string value) :
  unique_names cls ->
  forall self r self', init_fields cls kwargs (fields cls) self = (r, self') ->
    (r = Ok tt /\ none_missing cls kwargs = true /\ assignments_valid cls kwargs = true)
    \/ (exists name field, r = Raise (MissingValueException name)
          /\ (name, field) ∈ fields cls /\ missing_required kwargs (name, field) = true)
    \/ (r = Raise BadValueException /\ assignments_valid cls kwargs = false).
Proof.
  intros Hnd. apply init_fields_outcome.
  intros name field Hin. by apply get_field_NoDup.
Qed.

Lemma forallb_elem_of {A : Type} (p : A -> bool) (l : list A) (x : A) :
  forallb p l = true -> x ∈ l -> p x = true.
Proof.
  intros H Hin. rewrite forallb_forall in H. apply H. by apply list_elem_of_In.
Qed.

Lemma check_extra_outcome (fs : list (string * Field)) (keys : list string) :
  (check_extra fs keys = Ok tt /\ forall k, k ∈ keys -> get_field k fs <> None)
  \/ (exists k, check_extra fs keys = Raise (ExtraValueException k)
        /\ k ∈ keys /\ get_field k fs = None).
Proof.
  induction keys as [|k keys IH]; simpl.
  - left. split; [done|]. intros k Hk. by apply elem_of_nil in Hk.
  - destruct (get_field k fs) as [f|] eqn:Hk.
    + destruct IH as [[-> Hall]|(k' & -> & Hin & Hnone)].
      * left. split; [done|]. intros k' [->|Hin]%elem_of_cons; [by rewrite Hk|auto].
      * right. exists k'. split; [done|]. split; [by right|done].
    + right. exists k. split; [done|]. split; [left|done].
Qed.

Lemma kwargs_keys (kwargs : gmap string value) (k : string) :
  k ∈ map fst (map_to_list kwargs) <-> is_Some (kwargs !! k).
Proof.
  change (map fst (map_to_list kwargs)) with ((map_to_list kwargs).*1).
  rewrite list_elem_of_fmap. split.
  - intros ([k' v] & -> & Hin). apply elem_of_map_to_list in Hin. by exists v.
  - intros [v Hv]. exists (k, v). split; [done|]. by apply elem_of_map_to_list.
Qed.

Lemma missing_required_true (kwargs : gmap string value) (name : string) (field : Field) :
  missing_required kwargs (name, field) = true <->
  kwargs !! name = None /\ auto (options field) = false /\ required (options field) = true.
Proof.
  unfold missing_required. simpl. destruct (kwargs !! name).
  - split; [discriminate|]. by intros [? _].
  - destruct (auto (options field)), (required (options field)); simpl;
      split; try discriminate; try done; by intros (_ & ? & ?).
Qed.

Lemma new_outcome (cls : DocClass) (kwargs : gmap string value) :
  unique_names cls ->
  (exists self, new cls kwargs = Ok self /\ none_missing cls kwargs = true
     /\ assignments_valid cls kwargs = true
     /\ forall k, is_Some (kwargs !! k) -> get_field k (fields cls) <> None)
  \/ (exists k, new cls kwargs = Raise (ExtraValueException k)
        /\ none_missing cls kwargs = true /\ assignments_valid cls kwargs = true
        /\ is_Some (kwargs !! k) /\ get_field k (fields cls) = None)
  \/ (exists name field, new cls kwargs = Raise (MissingValueException name)
        /\ (name, field) ∈ fields cls /\ missing_required kwargs (name, field) = true)
  \/ (new cls kwargs = Raise BadValueException /\ assignments_valid cls kwargs = false).
Proof.
  intros Hnd. unfold new, __init__.
  destruct (init_fields cls kwargs (fields cls) ∅) as [r self'] eqn:Hrun.
  destruct (init_fields_class_outcome cls kwargs Hnd _ _ _ Hrun)
    as [(-> & Hm & Hv)|[(n & f & -> & Hin & Hmiss)|(-> & Hv)]].
  - destruct (check_extra_outcome (fields cls) (map fst (map_to_list kwargs)))
      as [[-> Hall]|(k & -> & Hin & Hnone)].
    + left. exists self'. repeat split; try done.
      intros k Hk. apply Hall. by apply kwargs_keys.
    + right. left. exists k. repeat split; try done. by apply kwargs_keys.
  - right. right. left. by exists n, f.
  - right. right. right. done.
Qed.

(** C1. Provided every value the constructor assigns (a keyword argument of
    a declared field, or the default of a field neither auto nor required)
    passes validation: construction fails with MissingValueException when a
    required, non-auto field has no keyword argument; and it fails with
    ExtraValueException when some keyword names no declared field and no
    required, non-auto field lacks its keyword. *)
Theorem construction_missing_or_extra (cls : DocClass) (kwargs : gmap string value) :
  unique_names cls ->
  assignments_valid cls kwargs = true ->
  ((exists name field, (name, field) ∈ fields cls /\ required (options field) = true
       /\ auto (options field) = false /\ kwargs !! name = None) ->
   exists name field, new cls kwargs = Raise (MissingValueException name)
       /\ (name, field) ∈ fields cls /\ required (options field) = true
       /\ auto (options field) = false /\ kwargs !! name = None)
  /\
  (none_missing cls kwargs = true ->
   (exists k, is_Some (kwargs !! k) /\ get_field k (fields cls) = None) ->
   exists k, new cls kwargs = Raise (ExtraValueException k)
       /\ is_Some (kwargs !! k) /\ get_field k (fields cls) = None).
Proof.
  intros Hnd Hvalid.
  destruct (new_outcome cls kwargs Hnd)
    as [(self & Hnew & Hm & _ & Hall)|[(k & Hnew & Hm & _ & Hk & Hnone)
       |[(n & f & Hnew & Hin & Hmiss)|[_ Hv]]]].
  - split.
    + intros (name & field & Hin & Hreq & Hauto & Hkw). exfalso.
      pose proof (forallb_elem_of _ _ _ Hm Hin) as H. simpl in H.
      assert (missing_required kwargs (name, field) = true) as Hmiss
        by (by apply missing_required_true).
      by rewrite Hmiss in H.
    + intros _ (k & Hk & Hnone). exfalso. by apply (Hall k).
  - split.
    + intros (name & field & Hin & Hreq & Hauto & Hkw). exfalso.
      pose proof (forallb_elem_of _ _ _ Hm Hin) as H. simpl in H.
      assert (missing_required kwargs (name, field) = true) as Hmiss
        by (by apply missing_required_true).
      by rewrite Hmiss in H.
    + intros _ _. by exists k.
  - apply missing_required_true in Hmiss as (Hkw & Hauto & Hreq). split.
    + intros _. by exists n, f.
    + intros Hm _. exfalso.
      pose proof (forallb_elem_of _ _ _ Hm Hin) as H. simpl in H.
      assert (missing_required kwargs (n, f) = true) as Hmiss
        by (by apply missing_required_true).
      by rewrite Hmiss in H.
  - congruence.
Qed.

Lemma construction_missing_or_extra_witness :
  (exists name field, new Person {[ "age" := VInt 5 ]} = Raise (MissingValueException name)
      /\ (name, field) ∈ fields Person /\ required (options field) = true
      /\ auto (options field) = false
      /\ ({[ "age" := VInt 5 ]} : gmap string value) !! name = None)
  /\
  (exists k, new Person {[ "name" := VStr "Ada"; "nickname" := VStr "A" ]}
               = Raise (ExtraValueException k)
      /\ is_Some (({[ "name" := VStr "Ada"; "nickname" := VStr "A" ]}
                     : gmap string value) !! k)
      /\ get_field k (fields Person) = None).
Proof.
  split.
  - apply (construction_missing_or_extra Person {[ "age" := VInt 5 ]}).
    + unfold unique_names. apply (bool_decide_unpack _). by vm_compute.
    + reflexivity.
    + exists "name", (StringField (mkOptions true false None)).
      split; [|by vm_compute]. right. right. left.
  - apply (construction_missing_or_extra Person
             {[ "name" := VStr "Ada"; "nickname" := VStr "A" ]}).
    + unfold unique_names. apply (bool_decide_unpack _). by vm_compute.
    + reflexivity.
    + reflexivity.
    + exists "nickname". split; [by eexists|reflexivity].
Defined.

(** C1, as stated, fails: an unknown keyword together with an omitted
    required field gives MissingValueException, and an invalid value for a
    field visited before the omitted required one gives BadValueException. *)
Lemma construction_missing_or_extra_counterexample :
  (is_Some (({[ "nickname" := VStr "A" ]} : gmap string value) !! "nickname")
   /\ get_field "nickname" (fields Person) = None
   /\ new Person {[ "nickname" := VStr "A" ]} = Raise (MissingValueException "name"))
  /\
  (get_field "name" (fields Person) = Some (StringField (mkOptions true false None))
   /\ ({[ "age" := VStr "old" ]} : gmap string value) !! "name" = None
   /\ new Person {[ "age" := VStr "old" ]} = Raise BadValueException).
Proof. repeat split; first [by vm_compute | by eexists]. Qed.

Lemma init_fields_app (cls : DocClass) (kwargs : gmap string value)
    (pre rest : list (string * Field)) (self : obj) :
  init_fields cls kwargs (pre ++ rest) self =
    match init_fields cls kwargs pre self with
    | (Ok _, self') => init_fields cls kwargs rest self'
    | (Raise e, self') => (Raise e, self')
    end.
Proof.
  revert self. induction pre as [|nf pre IH]; intros self; [done|].
  cbn [app init_fields]. destruct (init_field cls kwargs self nf) as [[[]|e] self1]; [|done].
  apply IH.
Qed.

(** The first field, in visiting order, that satisfies a test. *)
Lemma first_such {A : Type} (p : A -> bool) (l : list A) (x : A) :
  x ∈ l -> p x = true ->
  exists pre y post, l = pre ++ y :: post /\ p y = true
    /\ forallb (fun z => negb (p z)) pre = true.
Proof.
  induction l as [|z l IH]; intros Hin Hx; [by apply elem_of_nil in Hin|].
  destruct (p z) eqn:Hz.
  - by exists [], z, l.
  - apply elem_of_cons in Hin as [->|Hin]; [congruence|].
    destruct (IH Hin Hx) as (pre & y & post & -> & Hy & Hpre).
    exists (z :: pre), y, post. split; [done|]. split; [done|].
    simpl. by rewrite Hz.
Qed.

(** C10. When a required, non-auto field has no keyword argument and some
    keyword names no declared field, construction fails and never with
    ExtraValueException.  Let [name] be the first omitted required field in
    visiting order: construction raises MissingValueException for [name],
    unless the value assigned to a field visited before [name] fails
    validation, in which case it raises BadValueException. *)
Theorem missing_precedes_extra (cls : DocClass) (kwargs : gmap string value) :
  unique_names cls ->
  (exists name field, (name, field) ∈ fields cls /\ required (options field) = true
      /\ auto (options field) = false /\ kwargs !! name = None) ->
  (exists k, is_Some (kwargs !! k) /\ get_field k (fields cls) = None) ->
  exists pre name field post,
    fields cls = pre ++ (name, field) :: post
    /\ required (options field) = true /\ auto (options field) = false
    /\ kwargs !! name = None
    /\ forallb (fun nf => negb (missing_required kwargs nf)) pre = true
    /\ new cls kwargs =
         (if forallb (assignment_valid kwargs) pre
          then Raise (MissingValueException name)
          else Raise BadValueException)
    /\ forall k, new cls kwargs <> Raise (ExtraValueException k).
Proof.
  intros Hnd (name0 & field0 & Hin0 & Hreq0 & Hauto0 & Hkw0) _.
  destruct (first_such (missing_required kwargs) (fields cls) (name0, field0) Hin0)
    as (pre & [name field] & post & Hfields & Hmiss & Hpre);
    [by apply missing_required_true|].
  apply missing_required_true in Hmiss as (Hkw & Hauto & Hreq).
  assert (forall n f, (n, f) ∈ fields cls -> get_field n (fields cls) = Some f) as Hget
    by (intros n f; by apply get_field_NoDup).
  assert (new cls kwargs =
            (if forallb (assignment_valid kwargs) pre
             then Raise (MissingValueException name)
             else Raise BadValueException)) as Hnew.
  { unfold new, __init__. rewrite Hfields, init_fields_app.
    destruct (init_fields cls kwargs pre ∅) as [r self1] eqn:Hrun.
    destruct (init_fields_outcome cls kwargs pre) with (self := (∅ : obj)) (r := r)
      (self' := self1) as [(-> & _ & Hv)|[(n & f & -> & Hin & Hm)|(-> & Hv)]]; [|done| | |].
    - intros n f Hin. apply Hget. rewrite Hfields. apply elem_of_app. by left.
    - rewrite Hv. cbn [init_fields].
      rewrite (init_field_cases cls kwargs self1 name field).
      + unfold assigned, missing_required. simpl. by rewrite Hkw, Hauto, Hreq.
      + apply Hget. rewrite Hfields. apply elem_of_app. right. left.
    - pose proof (forallb_elem_of _ _ _ Hpre Hin) as H. simpl in H. by rewrite Hm in H.
    - by rewrite Hv. }
  exists pre, name, field, post. repeat split; try done.
  intros k. rewrite Hnew. by destruct (forallb (assignment_valid kwargs) pre).
Qed.

Lemma missing_precedes_extra_witness :
  exists pre name field post,
    fields Person = pre ++ (name, field) :: post
    /\ required (options field) = true /\ auto (options field) = false
    /\ ({[ "age" := VStr "old"; "nickname" := VStr "A" ]} : gmap string value) !! name = None
    /\ forallb (fun nf => negb (missing_required
                               {[ "age" := VStr "old"; "nickname" := VStr "A" ]} nf)) pre
       = true
    /\ new Person {[ "age" := VStr "old"; "nickname" := VStr "A" ]} =
         (if forallb (assignment_valid {[ "age" := VStr "old"; "nickname" := VStr "A" ]}) pre
          then Raise (MissingValueException name)
          else Raise BadValueException)
    /\ forall k, new Person {[ "age" := VStr "old"; "nickname" := VStr "A" ]}
                 <> Raise (ExtraValueException k).
Proof.
  apply (missing_precedes_extra Person {[ "age" := VStr "old"; "nickname" := VStr "A" ]}).
  - unfold unique_names. apply (bool_decide_unpack _). by vm_compute.
  - exists "name", (StringField (mkOptions true false None)).
    split; [|by vm_compute]. right. right. left.
  - exists "nickname". split; [by eexists|reflexivity].
Defined.

(** C10, as stated, fails when the value given for a field visited before
    the omitted required one is invalid: [Person(age="old", nickname="A")]
    raises BadValueException. *)
Lemma missing_precedes_extra_counterexample :
  get_field "name" (fields Person) = Some (StringField (mkOptions true false None))
  /\ ({[ "age" := VStr "old"; "nickname" := VStr "A" ]} : gmap string value) !! "name" = None
  /\ get_field "nickname" (fields Person) = None
  /\ is_Some (({[ "age" := VStr "old"; "nickname" := VStr "A" ]} : gmap string value)
               !! "nickname")
  /\ new Person {[ "age" := VStr "old"; "nickname" := VStr "A" ]} = Raise BadValueException.
Proof. repeat split; first [by vm_compute | by eexists]. Qed.

Lemma setattr_other (cls : DocClass) (self : obj) (n name : string) (v : value)
    (r : result unit) (self' : obj) :
  n <> name -> __setattr__ cls self n v = (r, self') -> self' !! name = self !! name.
Proof.
  intros Hne Hset.
  destruct (setattr_cases cls self n v) as [H|[H|H]];
    rewrite H in Hset; injection Hset as <- <-; [|done..].
  by apply lookup_insert_ne.
Qed.

Lemma init_field_keeps (cls : DocClass) (kwargs : gmap string value) (self : obj)
    (n name : string) (f : Field) (r : result unit) (self' : obj) :
  kwargs !! name = None ->
  (n = name -> auto (options f) = true) ->
  init_field cls kwargs self (n, f) = (r, self') ->
  self' !! name = self !! name.
Proof.
  intros Hkw Hauto. unfold init_field.
  destruct (kwargs !! n) as [v|] eqn:Hn.
  - apply setattr_other. intros ->. congruence.
  - destruct (auto (options f)) eqn:Ha; [by intros [= <- <-]|].
    destruct (required (options f)); [by intros [= <- <-]|].
    destruct (default (options f)) as [d|]; [|by intros [= <- <-]].
    apply setattr_other. intros Heq. by specialize (Hauto Heq).
Qed.

Lemma init_fields_keeps (cls : DocClass) (kwargs : gmap string value) (name : string)
    (fs : list (string * Field)) :
  kwargs !! name = None ->
  (forall f, (name, f) ∈ fs -> auto (options f) = true) ->
  forall self r self', init_fields cls kwargs fs self = (r, self') ->
    self' !! name = self !! name.
Proof.
  intros Hkw. induction fs as [|[n f] fs IH]; intros Hauto self r self' Hrun.
  - by injection Hrun as <- <-.
  - cbn [init_fields] in Hrun.
    destruct (init_field cls kwargs self (n, f)) as [r1 self1] eqn:Hstep.
    assert (self1 !! name = self !! name) as H1.
    { apply (init_field_keeps _ _ _ _ _ _ _ _ Hkw) in Hstep; [done|].
      intros ->. apply Hauto. left. }
    destruct r1 as [[]|e].
    + rewrite <- H1. apply (IH (fun f' H => Hauto f' (list_elem_of_further _ _ _ H)) _ _ _ Hrun).
    + by injection Hrun as <- <-.
Qed.

(** C8. A declared auto field omitted from the keyword arguments: its turn
    in the constructor's loop succeeds and changes nothing, whether or not
    the field is required or has a default, and however the construction
    ends the field is left unset. *)
Theorem auto_field_omitted (cls : DocClass) (kwargs : gmap string value)
    (name : string) (field : Field) :
  unique_names cls ->
  (name, field) ∈ fields cls ->
  auto (options field) = true ->
  kwargs !! name = None ->
  (forall self, init_field cls kwargs self (name, field) = (Ok tt, self))
  /\ (forall r self, __init__ cls ∅ kwargs = (r, self) -> self !! name = None)
  /\ (forall self, new cls kwargs = Ok self -> self !! name = None).
Proof.
  intros Hnd Hin Hauto Hkw.
  assert (forall r self, __init__ cls ∅ kwargs = (r, self) -> self !! name = None) as Hinit.
  { intros r self. unfold __init__.
    destruct (init_fields cls kwargs (fields cls) ∅) as [r1 self1] eqn:Hrun.
    apply (init_fields_keeps _ _ name) in Hrun; [|done|].
    - rewrite lookup_empty in Hrun. destruct r1 as [[]|e]; by intros [= <- <-].
    - intros f Hf. apply (get_field_NoDup _ _ _ Hnd) in Hf, Hin. congruence. }
  split; [|split; [done|]].
  - intros self. unfold init_field. by rewrite Hkw, Hauto.
  - intros self. unfold new.
    destruct (__init__ cls ∅ kwargs) as [r self1] eqn:Hrun.
    destruct r as [[]|e]; [|discriminate]. intros [= <-]. by eapply Hinit.
Qed.

Lemma auto_field_omitted_witness :
  (forall self, init_field Person {[ "name" := VStr "Ada" ]} self _id = (Ok tt, self))
  /\ (forall r self, __init__ Person ∅ {[ "name" := VStr "Ada" ]} = (r, self) ->
        self !! "_id" = None)
  /\ (forall self, new Person {[ "name" := VStr "Ada" ]} = Ok self -> self !! "_id" = None).
Proof.
  apply (auto_field_omitted Person {[ "name" := VStr "Ada" ]} "_id" (ObjectIdField false)).
  - unfold unique_names. apply (bool_decide_unpack _). by vm_compute.
  - right. left.
  - reflexivity.
  - reflexivity.
Defined.

(** ** The Index builder *)

Lemma alter_Some {A : Type} (f : A -> A) (m : gmap nat A) (i : nat) (x : A) :
  m !! i = Some x -> alter f i m = <[i := f x]> m.
Proof.
  intros Hi. apply map_eq. intros j. destruct (decide (i = j)) as [->|Hne].
  - by rewrite lookup_alter_eq, lookup_insert_eq, Hi.
  - by rewrite lookup_alter_ne, lookup_insert_ne.
Qed.

Lemma call_fluent_Some (c : fluent) (self : nat) (h : heap) (ix : Index) :
  h !! self = Some ix ->
  call_fluent c self h =
    (self, <[self := mkIndex (components ix ++ component_of c)
                       (unique_after [c] (__unique ix))
                       (drop_dups_after [c] (__drop_dups ix))]> h).
Proof.
  intros Hix. destruct c; simpl; unfold ascending, descending, unique;
    rewrite (alter_Some _ _ _ _ Hix); simpl; try done.
  by rewrite app_nil_r.
Qed.

Lemma chain_Some (cs : list fluent) (self : nat) :
  forall (h : heap) (ix : Index), h !! self = Some ix ->
  chain cs self h =
    (self, <[self := mkIndex (components ix ++ flat_map component_of cs)
                       (unique_after cs (__unique ix))
                       (drop_dups_after cs (__drop_dups ix))]> h).
Proof.
  induction cs as [|c cs IH]; intros h ix Hix.
  - simpl. rewrite app_nil_r. destruct ix. simpl. by rewrite insert_id.
  - cbn [chain]. rewrite (call_fluent_Some c self h ix Hix).
    rewrite (IH _ _ (lookup_insert_eq _ _ _)). rewrite insert_insert_eq.
    f_equal. f_equal. simpl. rewrite <- app_assoc. by destruct c.
Qed.

(** C9. On a fresh Index, whatever else the store holds: [ascending] and
    [descending] append their component and hand back the object they were
    called on, [unique] marks it unique; a chain of such calls returns the
    same object holding the components in call order; and
    [Index().ascending("a").descending("b").unique()] holds
    [("a", ASCENDING); ("b", DESCENDING)] and is unique. *)
Theorem fluent_index_builder (h : heap) (cs : list fluent) :
  let self := fst (Index__init__ h) in
  let h0 := snd (Index__init__ h) in
  h !! self = None
  /\ h0 !! self = Some (mkIndex [] false false)
  /\ (forall h1 ix name, h1 !! self = Some ix ->
        ascending self name h1 =
          (self, <[self := mkIndex (components ix ++ [(name, ASCENDING)])
                             (__unique ix) (__drop_dups ix)]> h1))
  /\ (forall h1 ix name, h1 !! self = Some ix ->
        descending self name h1 =
          (self, <[self := mkIndex (components ix ++ [(name, DESCENDING)])
                             (__unique ix) (__drop_dups ix)]> h1))
  /\ (forall h1 ix d, h1 !! self = Some ix ->
        unique self d h1 = (self, <[self := mkIndex (components ix) true d]> h1))
  /\ chain cs self h0 =
       (self, <[self := mkIndex (flat_map component_of cs) (unique_after cs false)
                          (drop_dups_after cs false)]> h0)
  /\ chain [Ascending "a"; Descending "b"; Unique false] self h0 =
       (self, <[self := mkIndex [("a", ASCENDING); ("b", DESCENDING)] true false]> h0).
Proof.
  intros self h0.
  assert (h0 !! self = Some (mkIndex [] false false)) as H0
    by apply lookup_insert_eq.
  split; [|split; [done|]].
  { apply not_elem_of_dom. apply is_fresh. }
  split; [|split; [|split]].
  - intros h1 ix name Hix. unfold ascending. by rewrite (alter_Some _ _ _ _ Hix).
  - intros h1 ix name Hix. unfold descending. by rewrite (alter_Some _ _ _ _ Hix).
  - intros h1 ix d Hix. unfold unique. by rewrite (alter_Some _ _ _ _ Hix).
  - split.
    + by rewrite (chain_Some cs self h0 _ H0).
    + by rewrite (chain_Some _ self h0 _ H0).
Qed.

(** ** wrap *)

Section WrapLoopFacts.
Variable W : Field -> value -> result value.
Variable self : obj.

Lemma wrap_fields_lookup (fs : list (string * Field)) :
  NoDup fs.*1 ->
  forall res d, wrap_fields W self fs res = Ok d ->
  forall name,
    d !! name =
      match get_field name fs, self !! name with
      | Some f, Some v => match W f v with Ok w => Some w | Raise _ => None end
      | _, _ => res !! name
      end.
Proof.
  induction fs as [|[n f] fs IH]; intros Hnd res d Hrun name.
  - simpl in *. by injection Hrun as <-.
  - apply NoDup_cons in Hnd as [Hn Hnd]. cbn [wrap_fields] in Hrun.
    cbn [get_field]. destruct (self !! n) as [v|] eqn:Hv.
    + destruct (W f v) as [w|e] eqn:Hw; [|discriminate]. simpl in Hrun.
      rewrite (IH Hnd _ _ Hrun name).
      destruct (String.eqb_spec n name) as [->|Hne].
      * rewrite (proj2 (get_field_None name fs) Hn), Hv, Hw. apply lookup_insert_eq.
      * rewrite lookup_insert_ne by done. done.
    + rewrite (IH Hnd _ _ Hrun name).
      destruct (String.eqb_spec n name) as [->|Hne]; [|done].
      by rewrite (proj2 (get_field_None name fs) Hn), Hv.
Qed.

Lemma wrap_fields_total (fs : list (string * Field)) :
  (forall n f v, (n, f) ∈ fs -> self !! n = Some v -> exists w, W f v = Ok w) ->
  forall res, exists d, wrap_fields W self fs res = Ok d.
Proof.
  induction fs as [|[n f] fs IH]; intros Hok res.
  - by exists res.
  - cbn [wrap_fields].
    assert (forall n f v, (n, f) ∈ fs -> self !! n = Some v -> exists w, W f v = Ok w)
      as Hok' by (intros ? ? ? ?; apply Hok; by right).
    destruct (self !! n) as [v|] eqn:Hv; [|by apply IH].
    destruct (Hok n f v) as [w Hw]; [left|done|].
    rewrite Hw. simpl. by apply IH.
Qed.
End WrapLoopFacts.

(** The entries of a successful [wrap()], name by name. *)
Lemma Document_wrap_lookup (cls : DocClass) (self : obj) :
  unique_names cls ->
  (forall name field v, (name, field) ∈ fields cls -> self !! name = Some v ->
     exists w, Field_wrap field v = Ok w) ->
  exists d, Document_wrap cls self = Ok d
    /\ forall name,
         d !! name =
           match get_field name (fields cls), self !! name with
           | Some f, Some v => match Field_wrap f v with Ok w => Some w | Raise _ => None end
           | _, _ => None
           end.
Proof.
  intros Hnd Hok. unfold Document_wrap.
  destruct (wrap_fields_total Field_wrap self (fields cls) Hok ∅) as [d Hd].
  exists d. split; [done|]. intros name.
  rewrite (wrap_fields_lookup Field_wrap self (fields cls) Hnd ∅ d Hd name).
  rewrite lookup_empty. destruct (get_field name (fields cls)); [|done].
  by destruct (self !! name).
Qed.

(** C7. [wrap()] returns a mapping holding, for each declared field with a
    set value, the entry name -> field.wrap(value), and nothing under any
    other name: no entry for a declared field that is unset. *)
Theorem wrap_entries (cls : DocClass) (self : obj) :
  unique_names cls ->
  (forall name field v, (name, field) ∈ fields cls -> self !! name = Some v ->
     exists w, Field_wrap field v = Ok w) ->
  exists d, Document_wrap cls self = Ok d
    /\ (forall name field v, (name, field) ∈ fields cls -> self !! name = Some v ->
          exists w, Field_wrap field v = Ok w /\ d !! name = Some w)
    /\ (forall name, self !! name = None -> d !! name = None)
    /\ (forall name, get_field name (fields cls) = None -> d !! name = None).
Proof.
  intros Hnd Hok.
  destruct (Document_wrap_lookup cls self Hnd Hok) as (d & Hd & Hlook).
  exists d. split; [done|]. split; [|split].
  - intros name field v Hin Hv. destruct (Hok name field v Hin Hv) as [w Hw].
    exists w. split; [done|].
    by rewrite Hlook, (get_field_NoDup _ _ _ Hnd Hin), Hv, Hw.
  - intros name Hv. rewrite Hlook, Hv. by destruct (get_field name (fields cls)).
  - intros name Hf. by rewrite Hlook, Hf.
Qed.

Lemma wrap_entries_witness :
  exists d, Document_wrap Person ada = Ok d
    /\ (forall name field v, (name, field) ∈ fields Person -> ada !! name = Some v ->
          exists w, Field_wrap field v = Ok w /\ d !! name = Some w)
    /\ (forall name, ada !! name = None -> d !! name = None)
    /\ (forall name, get_field name (fields Person) = None -> d !! name = None).
Proof.
  apply (wrap_entries Person ada).
  - unfold unique_names. apply (bool_decide_unpack _). by vm_compute.
  - intros name field v Hin.
    apply elem_of_cons in Hin as [[= -> ->]|Hin];
      [|apply elem_of_cons in Hin as [[= -> ->]|Hin];
        [|apply elem_of_cons in Hin as [[= -> ->]|Hin];
          [|by apply elem_of_nil in Hin]]];
      vm_compute; intros [= <-]; by eexists.
Defined.

(** ** unwrap *)

Lemma Field_unwrap_raises (f : Field) (v : value) (e : exn) :
  Field_unwrap f v = Raise e -> e = BadValueException.
Proof.
  destruct f as [o c|o T]; cbn [Field_unwrap].
  - destruct (codec_is_valid_unwrap c v); [discriminate|congruence].
  - cbv zeta.
    match goal with |- (if is_ok ?t then _ else _) = _ -> _ => destruct t end;
      simpl; [discriminate|congruence].
Qed.

Lemma getattr_unwrap_get_field (U : Field -> value -> result value)
    (fs : list (string * Field)) (k : string) (v : value) :
  getattr_unwrap U fs k v =
    match get_field k fs with
    | Some f => U f v
    | None => Raise (if String.eqb k "f" then BadQueryException else AttributeError)
    end.
Proof.
  unfold getattr_unwrap. induction fs as [|[n f] fs IH]; simpl; [done|].
  by destruct (String.eqb n k).
Qed.

(** C5. A stored document with a key that names no declared field makes
    [unwrap] fail, but with the AttributeError of [getattr(cls, k)] and not
    with ExtraValueException: [Person.unwrap({"nickname": "A"})] raises
    AttributeError, alone or beside a valid [name], whereas the constructor
    given the same unknown name raises ExtraValueException. *)
Theorem unwrap_unknown_key_raises_AttributeError :
  get_field "nickname" (fields Person) = None
  /\ Document_unwrap Person {[ "nickname" := VStr "A" ]} = Raise AttributeError
  /\ Document_unwrap Person {[ "name" := VStr "Ada"; "nickname" := VStr "A" ]}
     = Raise AttributeError
  /\ new Person {[ "name" := VStr "Ada"; "nickname" := VStr "A" ]}
     = Raise (ExtraValueException "nickname").
Proof. repeat split; by vm_compute. Qed.

(** ** commit *)

Lemma ensure_all_log (respond : list call -> call -> result value)
    (collection : string) (ixs : list Index) :
  forall db db1, ensure_all respond ixs collection db = (Ok tt, db1) ->
    db1 = db ++ map (ensure_call collection) ixs.
Proof.
  induction ixs as [|ix ixs IH]; intros db db1; cbn [ensure_all].
  - intros [= <-]. by rewrite app_nil_r.
  - unfold ensure, invoke.
    destruct (respond db _) as [u|e]; [|discriminate].
    intros Hrun. apply IH in Hrun. rewrite Hrun, <- app_assoc. done.
Qed.

(** C6. When every index synchronisation succeeds, [commit] has called
    [ensure_index] on the resolved collection for each declared index, in
    order, and then [save] with the instance's [wrap()]; the identifier
    [save] returns is assigned to [_id] through [__setattr__]; and if [save]
    raises, the instance is what it was, so an unset [_id] stays unset. *)
Theorem commit_syncs_saves_assigns (respond : list call -> call -> result value)
    (cls : DocClass) (self : obj) (db db1 : list call) (doc : gmap string value) :
  ensure_all respond (get_indexes cls) (get_collection_name cls) db = (Ok tt, db1) ->
  Document_wrap cls self = Ok doc ->
  let collection := get_collection_name cls in
  let db2 := db ++ map (ensure_call collection) (get_indexes cls) ++ [Save collection doc] in
  db1 = db ++ map (ensure_call collection) (get_indexes cls)
  /\ snd (snd (commit respond cls self db)) = db2
  /\ (forall id, respond db1 (Save collection doc) = Ok id ->
        commit respond cls self db =
          (fst (__setattr__ cls self "_id" id), (snd (__setattr__ cls self "_id" id), db2))
        /\ (forall f, get_field "_id" (fields cls) = Some f -> is_valid_wrap f id = true ->
              commit respond cls self db = (Ok tt, (<["_id" := id]> self, db2))))
  /\ (forall e, respond db1 (Save collection doc) = Raise e ->
        commit respond cls self db = (Raise e, (self, db2))
        /\ (self !! "_id" = None ->
              fst (snd (commit respond cls self db)) !! "_id" = None)).
Proof.
  intros Hens Hwrap collection db2.
  pose proof (ensure_all_log _ _ _ _ _ Hens) as Hdb1.
  assert (db1 ++ [Save collection doc] = db2) as Hdb2
    by (unfold db2, collection; by rewrite Hdb1, <- app_assoc).
  split; [done|].
  unfold commit. rewrite Hens, Hwrap. unfold invoke.
  change (get_collection_name cls) with collection. rewrite Hdb2.
  destruct (respond db1 (Save collection doc)) as [id|e] eqn:Hsave.
  - destruct (__setattr__ cls self "_id" id) as [r self'] eqn:Hset.
    split; [done|]. split; [|intros e [=]].
    intros id' [= <-]. rewrite Hset. split; [done|].
    intros f Hf Hv. rewrite (setattr_valid _ _ _ _ _ Hf Hv) in Hset.
    by injection Hset as <- <-.
  - split; [done|]. split; [intros id [=]|].
    intros e' [= <-]. done.
Qed.

Lemma commit_syncs_saves_assigns_witness :
  commit accepting Team new_team [] =
    (Ok tt,
     (<["_id" := VObjectId 2]> new_team,
      [ EnsureIndex "teams" [("lead", DESCENDING); ("title", ASCENDING)] false false;
        EnsureIndex "teams" [("title", ASCENDING)] true false;
        Save "teams" {[ "title" := VStr "core";
                        "lead" := VDict {[ "name" := VStr "Ada"; "age" := VInt 36 ]} ]} ]))
  /\ commit refusing Team new_team [] =
       (Raise (CollectionError 11000),
        (new_team,
         [ EnsureIndex "teams" [("lead", DESCENDING); ("title", ASCENDING)] false false;
           EnsureIndex "teams" [("title", ASCENDING)] true false;
           Save "teams" {[ "title" := VStr "core";
                           "lead" := VDict {[ "name" := VStr "Ada"; "age" := VInt 36 ]} ]} ])).
Proof.
  split.
  - refine (proj2 (proj1 (proj2 (proj2 (commit_syncs_saves_assigns accepting Team new_team []
        [ EnsureIndex "teams" [("lead", DESCENDING); ("title", ASCENDING)] false false;
          EnsureIndex "teams" [("title", ASCENDING)] true false ]
        {[ "title" := VStr "core";
           "lead" := VDict {[ "name" := VStr "Ada"; "age" := VInt 36 ]} ]}
        _ _)))
      (VObjectId 2) _) (ObjectIdField false) _ _); reflexivity.
  - refine (proj1 (proj2 (proj2 (proj2 (commit_syncs_saves_assigns refusing Team new_team []
        [ EnsureIndex "teams" [("lead", DESCENDING); ("title", ASCENDING)] false false;
          EnsureIndex "teams" [("title", ASCENDING)] true false ]
        {[ "title" := VStr "core";
           "lead" := VDict {[ "name" := VStr "Ada"; "age" := VInt 36 ]} ]}
        _ _)))
      (CollectionError 11000) _)); reflexivity.
Defined.

(** ** Round trip *)

(** Induction on a schema, with the fields of a nested class as premises. *)
Section FieldInduction.
Variable P : Field -> Prop.
Hypothesis Hleaf : forall o c, P (LeafField o c).
Hypothesis Hdoc : forall o T,
  (forall n f, (n, f) ∈ fields T -> P f) -> P (DocumentField o T).

Lemma Field_nested_ind : forall f, P f.
Proof.
  assert (forall o T, Forall (fun nf : string * Field => P nf.2) (fields T) ->
                      P (DocumentField o T)) as Hdoc'.
  { intros o T Hall. apply Hdoc. intros n f Hin.
    rewrite Forall_forall in Hall. apply (Hall (n, f) Hin). }
  exact (fix IH (f : Field) : P f :=
           match f with
           | LeafField o c => Hleaf o c
           | DocumentField o T =>
               Hdoc' o T
                 (match T as T0
                        return Forall (fun nf : string * Field => P nf.2) (fields T0) with
                  | mkClass _ fs _ _ =>
                      (fix go (l : list (string * Field))
                         : Forall (fun nf : string * Field => P nf.2) l :=
                         match l with
                         | [] => @List.Forall_nil _ _
                         | nf :: l' => @List.Forall_cons _ _ nf l' (IH nf.2) (go l')
                         end) fs
                  end)
           end).
Qed.
End FieldInduction.

Lemma lawful_DocumentField (o : FieldOptions) (T : DocClass) :
  lawful (DocumentField o T) ->
  NoDup (fields T).*1 /\ forall n f, (n, f) ∈ fields T -> lawful f.
Proof.
  destruct T as [cn fs coll ixs]. simpl. intros [Hnd Hall]. split; [done|].
  clear Hnd. induction fs as [|[n g] fs IH]; intros n' f' Hin.
  - by apply elem_of_nil in Hin.
  - destruct Hall as [Hg Hall].
    apply elem_of_cons in Hin as [[= -> ->]|Hin]; [done|by apply (IH Hall n' f')].
Qed.

Lemma valid_value_is_valid_wrap (f : Field) (v : value) :
  valid_value f v = true -> is_valid_wrap f v = true.
Proof.
  destruct f as [o c|o T]; simpl; [done|].
  destruct v; try done. by intros [? _]%andb_prop.
Qed.

Lemma is_some_true {A : Type} (x : option A) : is_some x = true <-> is_Some x.
Proof. destruct x; simpl; split; done. Qed.

Section ValidDictFacts.
Variable V : Field -> value -> bool.

Lemma valid_dict_dom (fs : list (string * Field)) (self : obj) (k : string) :
  valid_dict V fs self = true -> is_Some (self !! k) -> is_Some (get_field k fs).
Proof.
  intros [Hdom _]%andb_prop Hk. apply is_some_true.
  apply (forallb_elem_of _ _ _ Hdom). by apply kwargs_keys.
Qed.

Lemma valid_dict_slot (fs : list (string * Field)) (self : obj) (n : string) (f : Field) :
  valid_dict V fs self = true -> (n, f) ∈ fs -> valid_slot V self (n, f) = true.
Proof. intros [_ Hs]%andb_prop Hin. by apply (forallb_elem_of _ _ _ Hs). Qed.
End ValidDictFacts.

Lemma unset_ok_assigned (kwargs : gmap string value) (n : string) (f : Field) :
  kwargs !! n = None -> unset_ok (options f) = true ->
  assigned kwargs (n, f) = None /\ missing_required kwargs (n, f) = false.
Proof.
  unfold unset_ok, assigned, missing_required. simpl. intros -> H.
  destruct (auto (options f)); [done|]. simpl in *.
  destruct (required (options f)); [done|]. simpl in *.
  by destruct (default (options f)).
Qed.

(** The first loop run on the attributes of a valid instance copies them. *)
Lemma init_fields_fill (cls : DocClass) (kwargs : gmap string value)
    (fs : list (string * Field)) :
  (forall n f, (n, f) ∈ fs -> get_field n (fields cls) = Some f) ->
  (forall n f, (n, f) ∈ fs -> valid_slot valid_value kwargs (n, f) = true) ->
  forall acc, exists acc',
    init_fields cls kwargs fs acc = (Ok tt, acc')
    /\ (forall k, k ∈ fs.*1 -> is_Some (kwargs !! k) -> acc' !! k = kwargs !! k)
    /\ (forall k, k ∉ fs.*1 \/ kwargs !! k = None -> acc' !! k = acc !! k).
Proof.
  induction fs as [|[n f] fs IH]; intros Hget Hvalid acc.
  - exists acc. split; [done|]. split; [|done].
    intros k Hk. by apply elem_of_nil in Hk.
  - assert (forall n f, (n, f) ∈ fs -> get_field n (fields cls) = Some f) as Hget'
      by (intros ? ? ?; apply Hget; by right).
    assert (forall n f, (n, f) ∈ fs -> valid_slot valid_value kwargs (n, f) = true) as Hvalid'
      by (intros ? ? ?; apply Hvalid; by right).
    cbn [init_fields]. rewrite (init_field_cases cls kwargs acc n f) by (apply Hget; left).
    pose proof (Hvalid n f (list_elem_of_here _ _)) as Hslot. simpl in Hslot.
    destruct (kwargs !! n) as [v|] eqn:Hn.
    + unfold assigned. simpl. rewrite Hn, (valid_value_is_valid_wrap _ _ Hslot).
      destruct (IH Hget' Hvalid' (<[n := v]> acc)) as (acc' & Hrun & Hin & Hout).
      exists acc'. split; [done|]. split.
      * intros k Hk Hsome. destruct (decide (k ∈ fs.*1)) as [Hkfs|Hkfs]; [by apply Hin|].
        apply elem_of_cons in Hk as [->|Hk]; [|done]. simpl.
        rewrite Hout by (by left). by rewrite lookup_insert_eq.
      * intros k Hk. rewrite Hout.
        -- apply lookup_insert_ne. intros <-. destruct Hk as [Hk|Hk]; [|congruence].
           apply Hk. left.
        -- destruct Hk as [Hk|Hk]; [left|by right]. intros H. apply Hk. by right.
    + destruct (unset_ok_assigned kwargs n f Hn Hslot) as [-> ->].
      destruct (IH Hget' Hvalid' acc) as (acc' & Hrun & Hin & Hout).
      exists acc'. split; [done|]. split.
      * intros k Hk Hsome. apply Hin; [|done].
        apply elem_of_cons in Hk as [->|Hk]; [|done].
        simpl in Hsome. rewrite Hn in Hsome. by destruct Hsome.
      * intros k Hk. apply Hout.
        destruct Hk as [Hk|Hk]; [left|by right]. intros H. apply Hk. by right.
Qed.

(** Constructing from the attributes of a valid instance gives it back. *)
Lemma new_valid (cls : DocClass) (self : obj) :
  unique_names cls -> valid_instance cls self = true -> new cls self = Ok self.
Proof.
  intros Hnd Hvalid. unfold new, __init__.
  destruct (init_fields_fill cls self (fields cls)) with (acc := (∅ : obj))
    as (acc' & Hrun & Hin & Hout).
  { intros n f. by apply get_field_NoDup. }
  { intros n f. by apply valid_dict_slot. }
  rewrite Hrun.
  assert (acc' = self) as ->.
  { apply map_eq. intros k. destruct (self !! k) as [v|] eqn:Hk.
    - rewrite <- Hk. apply Hin; [|by rewrite Hk].
      destruct (valid_dict_dom _ _ _ k Hvalid) as [f Hf]; [by rewrite Hk|].
      apply get_field_Some in Hf. apply list_elem_of_fmap. by exists (k, f).
    - rewrite Hout by (by right). apply lookup_empty. }
  destruct (check_extra_outcome (fields cls) (map fst (map_to_list self)))
    as [[-> _]|(k & _ & Hk & Hnone)]; [done|].
  apply kwargs_keys in Hk. apply (valid_dict_dom _ _ _ k Hvalid) in Hk.
  rewrite Hnone in Hk. by destruct Hk.
Qed.

Lemma unwrap_items_fill (U : Field -> value -> result value)
    (fs : list (string * Field)) (self : obj) (kvs : list (string * value)) :
  (forall k w, (k, w) ∈ kvs ->
     exists v, getattr_unwrap U fs k w = Ok v /\ self !! k = Some v) ->
  forall params, exists p,
    unwrap_items U fs kvs params = Ok p
    /\ (forall k, k ∈ kvs.*1 -> p !! k = self !! k)
    /\ (forall k, k ∉ kvs.*1 -> p !! k = params !! k).
Proof.
  induction kvs as [|[k0 w0] kvs IH]; intros Hall params.
  - exists params. split; [done|]. split; [|done].
    intros k Hk. by apply elem_of_nil in Hk.
  - destruct (Hall k0 w0) as (v0 & Hu & Hv0); [left|].
    cbn [unwrap_items]. rewrite Hu. simpl.
    destruct (IH (fun k w H => Hall k w (list_elem_of_further _ _ _ H)) (<[k0 := v0]> params))
      as (p & Hrun & Hin & Hout).
    exists p. split; [done|]. split.
    + intros k Hk. destruct (decide (k ∈ kvs.*1)) as [Hkk|Hkk]; [by apply Hin|].
      apply elem_of_cons in Hk as [->|Hk]; [|done]. simpl.
      by rewrite Hout, lookup_insert_eq.
    + intros k Hk. apply not_elem_of_cons in Hk as [Hne Hk].
      rewrite Hout by done. by apply lookup_insert_ne.
Qed.

(** One class, its fields known to round-trip. *)
Lemma class_roundtrip (T : DocClass) :
  unique_names T ->
  (forall n f, (n, f) ∈ fields T -> forall v, valid_value f v = true ->
     exists w, Field_wrap f v = Ok w /\ Field_unwrap f w = Ok v) ->
  forall self, valid_instance T self = true ->
  exists d, Document_wrap T self = Ok d /\ Document_unwrap T d = Ok self.
Proof.
  intros Hnd Hfields self Hvalid.
  assert (forall n f v, (n, f) ∈ fields T -> self !! n = Some v -> valid_value f v = true)
    as Hvals.
  { intros n f v Hin Hv. pose proof (valid_dict_slot _ _ _ _ _ Hvalid Hin) as Hs.
    simpl in Hs. by rewrite Hv in Hs. }
  assert (forall n f v, (n, f) ∈ fields T -> self !! n = Some v ->
                        exists w, Field_wrap f v = Ok w) as Hok.
  { intros n f v Hin Hv. destruct (Hfields n f Hin v (Hvals _ _ _ Hin Hv)) as (w & Hw & _).
    by exists w. }
  destruct (Document_wrap_lookup T self Hnd Hok) as (d & Hwrap & Hlook).
  assert (forall n f v, (n, f) ∈ fields T -> self !! n = Some v ->
                        exists w, Field_wrap f v = Ok w /\ d !! n = Some w) as Hset.
  { intros n f v Hin Hv. destruct (Hok n f v Hin Hv) as [w Hw]. exists w.
    split; [done|]. by rewrite Hlook, (get_field_NoDup _ _ _ Hnd Hin), Hv, Hw. }
  assert (forall n, self !! n = None -> d !! n = None) as Hunset.
  { intros n Hv. rewrite Hlook, Hv. by destruct (get_field n (fields T)). }
  assert (forall n, get_field n (fields T) = None -> d !! n = None) as Hundeclared.
  { intros n Hf. by rewrite Hlook, Hf. }
  exists d. split; [done|]. unfold Document_unwrap, unwrap_with.
  destruct (unwrap_items_fill Field_unwrap (fields T) self (map_to_list d))
    with (params := (∅ : obj)) as (p & Hrun & Hin & Hout).
  { intros k w Hkw. apply elem_of_map_to_list in Hkw.
    destruct (get_field k (fields T)) as [f|] eqn:Hf;
      [|by rewrite (Hundeclared k Hf) in Hkw].
    destruct (self !! k) as [v|] eqn:Hv; [|by rewrite (Hunset k Hv) in Hkw].
    pose proof (get_field_Some _ _ _ Hf) as Hfin.
    destruct (Hset k f v Hfin Hv) as (w' & Hw' & Hdk).
    assert (w' = w) as -> by congruence.
    destruct (Hfields k f Hfin v (Hvals _ _ _ Hfin Hv)) as (w'' & Hw'' & Hu).
    assert (w'' = w) as -> by congruence.
    exists v. by rewrite getattr_unwrap_get_field, Hf. }
  rewrite Hrun. simpl.
  assert (p = self) as ->; [|by apply new_valid].
  apply map_eq. intros k. destruct (decide (k ∈ (map_to_list d).*1)) as [Hk|Hk].
  - by apply Hin.
  - rewrite (Hout k Hk), lookup_empty. symmetry.
    destruct (self !! k) as [v|] eqn:Hv; [|done]. exfalso. apply Hk.
    destruct (valid_dict_dom _ _ _ k Hvalid) as [f Hf]; [by rewrite Hv|].
    destruct (Hset k f v (get_field_Some _ _ _ Hf) Hv) as (w & _ & Hd).
    apply list_elem_of_fmap. exists (k, w). split; [done|]. by apply elem_of_map_to_list.
Qed.

(** A valid value of a lawful field survives wrap followed by unwrap. *)
Lemma Field_roundtrip (f : Field) :
  lawful f -> forall v, valid_value f v = true ->
  exists w, Field_wrap f v = Ok w /\ Field_unwrap f w = Ok v.
Proof.
  induction f as [o c|o T IH] using Field_nested_ind; intros Hlaw v Hv.
  - simpl in *. destruct (Hlaw v Hv) as [Hu Heq].
    exists (codec_wrap c v). unfold validate_wrap. simpl. rewrite Hv. simpl.
    split; [done|]. by rewrite Hu, Heq.
  - apply lawful_DocumentField in Hlaw as [Hnd Hlaw].
    destruct v as [ | | | | | |c self]; try done.
    simpl in Hv. apply andb_prop in Hv as [Hc Hself].
    apply String.eqb_eq in Hc as ->.
    destruct (class_roundtrip T Hnd) with (self := self) as (d & Hwrap & Hunwrap); [|done|].
    { intros n g Hin. apply (IH n g Hin). by apply (Hlaw n g). }
    exists (VDict d). cbn [Field_wrap Field_unwrap]. unfold validate_wrap. simpl.
    rewrite String.eqb_refl. simpl.
    unfold Document_wrap in Hwrap. rewrite Hwrap. simpl. split; [done|].
    unfold Document_unwrap in Hunwrap. by rewrite Hunwrap.
Qed.

Lemma roundtrip_valid (cls : DocClass) (x : obj) :
  lawful_class cls -> valid_instance cls x = true ->
  exists d, Document_wrap cls x = Ok d /\ Document_unwrap cls d = Ok x.
Proof.
  intros Hlaw Hvalid. unfold lawful_class in Hlaw.
  apply lawful_DocumentField in Hlaw as [Hnd Hlaw].
  apply (class_roundtrip cls Hnd); [|done].
  intros n f Hin. apply Field_roundtrip. by apply (Hlaw n f).
Qed.

(** What the first loop leaves in the instance when it succeeds. *)
Lemma init_fields_lookup (cls : DocClass) (kwargs : gmap string value)
    (fs : list (string * Field)) :
  NoDup fs.*1 ->
  (forall n f, (n, f) ∈ fs -> get_field n (fields cls) = Some f) ->
  forall acc acc', init_fields cls kwargs fs acc = (Ok tt, acc') ->
  forall k,
    acc' !! k =
      match get_field k fs with
      | Some f => match assigned kwargs (k, f) with Some v => Some v | None => acc !! k end
      | None => acc !! k
      end.
Proof.
  induction fs as [|[n f] fs IH]; intros Hnd Hget acc acc' Hrun k.
  - simpl in *. by injection Hrun as <-.
  - apply NoDup_cons in Hnd as [Hn Hnd].
    assert (forall n f, (n, f) ∈ fs -> get_field n (fields cls) = Some f) as Hget'
      by (intros ? ? ?; apply Hget; by right).
    cbn [init_fields] in Hrun.
    rewrite (init_field_cases cls kwargs acc n f) in Hrun by (apply Hget; left).
    cbn [get_field].
    destruct (assigned kwargs (n, f)) as [v|] eqn:Ha.
    + destruct (is_valid_wrap f v); [|discriminate].
      rewrite (IH Hnd Hget' _ _ Hrun k).
      destruct (String.eqb_spec n k) as [->|Hne].
      * rewrite (proj2 (get_field_None k fs) Hn), Ha. apply lookup_insert_eq.
      * rewrite lookup_insert_ne by done. done.
    + destruct (missing_required kwargs (n, f)); [discriminate|].
      rewrite (IH Hnd Hget' _ _ Hrun k).
      destruct (String.eqb_spec n k) as [->|Hne]; [|done].
      by rewrite (proj2 (get_field_None k fs) Hn), Ha.
Qed.

(** An instance the constructor returns is validly built, provided the
    nested instances it was given are. *)
Lemma new_valid_instance (cls : DocClass) (kwargs : gmap string value) (self : obj) :
  unique_names cls ->
  (forall n f v, (n, f) ∈ fields cls -> assigned kwargs (n, f) = Some v ->
     is_valid_wrap f v = true -> valid_value f v = true) ->
  new cls kwargs = Ok self ->
  valid_instance cls self = true.
Proof.
  intros Hnd Hnested. unfold new, __init__.
  destruct (init_fields cls kwargs (fields cls) ∅) as [r self'] eqn:Hrun.
  destruct (init_fields_class_outcome cls kwargs Hnd _ _ _ Hrun)
    as [(-> & Hm & Hv)|[(n & f & -> & _)|(-> & _)]]; [|discriminate..].
  destruct (check_extra _ _); [|discriminate]. intros [= <-].
  pose proof (init_fields_lookup cls kwargs (fields cls) Hnd
                (fun n f H => get_field_NoDup _ _ _ Hnd H) _ _ Hrun) as Hlook.
  unfold valid_instance, valid_dict. apply andb_true_intro. split.
  - apply forallb_forall. intros k Hk. apply list_elem_of_In, kwargs_keys in Hk.
    rewrite Hlook in Hk. destruct (get_field k (fields cls)); [done|].
    rewrite lookup_empty in Hk. by destruct Hk.
  - apply forallb_forall. intros [n f] Hin. apply list_elem_of_In in Hin. simpl.
    rewrite Hlook, (get_field_NoDup _ _ _ Hnd Hin), lookup_empty.
    pose proof (forallb_elem_of _ _ _ Hv Hin) as Hvalid.
    pose proof (forallb_elem_of _ _ _ Hm Hin) as Hmiss. simpl in Hmiss.
    unfold assignment_valid in Hvalid.
    destruct (assigned kwargs (n, f)) as [v|] eqn:Ha; [by apply (Hnested n f v)|].
    unfold assigned, missing_required, unset_ok in *. simpl in *.
    destruct (kwargs !! n); [done|].
    destruct (auto (options f)); [done|].
    destruct (required (options f)); [done|]. simpl.
    by destruct (default (options f)).
Qed.

(** The stored values of a validly built instance all wrap. *)
Lemma Field_wrap_total (f : Field) :
  forall v, valid_value f v = true -> exists w, Field_wrap f v = Ok w.
Proof.
  induction f as [o c|o T IH] using Field_nested_ind; intros v Hv.
  - simpl in *. unfold validate_wrap. simpl. rewrite Hv. by eexists.
  - destruct v as [ | | | | | |c self]; try done.
    simpl in Hv. apply andb_prop in Hv as [Hc Hself].
    cbn [Field_wrap]. unfold validate_wrap. simpl. rewrite Hc. simpl.
    destruct (wrap_fields_total Field_wrap self (fields T)) with (res := (∅ : obj))
      as [d Hd].
    + intros n g v Hin Hn. apply (IH n g Hin).
      pose proof (valid_dict_slot _ _ _ _ _ Hself Hin) as Hs. simpl in Hs.
      by rewrite Hn in Hs.
    + rewrite Hd. by eexists.
Qed.

Lemma valid_instance_wraps (cls : DocClass) (self : obj) :
  valid_instance cls self = true ->
  forall name field v, (name, field) ∈ fields cls -> self !! name = Some v ->
    exists w, Field_wrap field v = Ok w.
Proof.
  intros Hvalid name field v Hin Hv. apply Field_wrap_total.
  pose proof (valid_dict_slot _ _ _ _ _ Hvalid Hin) as Hs. simpl in Hs.
  by rewrite Hv in Hs.
Qed.

(** C2. For a validly built instance [x] whose declared fields are all set,
    of a class whose leaf codecs keep their contract: [wrap] succeeds with
    an entry for every declared field, and [unwrap] of that document gives
    back [x], class and attribute values alike, nested documents included.
    (Instances are compared by class and attribute values; [Document]
    defines no [__eq__].) *)
Theorem unwrap_wrap_roundtrip (cls : DocClass) (x : obj) :
  lawful_class cls ->
  valid_instance cls x = true ->
  all_set cls x = true ->
  exists d, Document_wrap cls x = Ok d
    /\ Document_unwrap cls d = Ok x
    /\ (forall name field, (name, field) ∈ fields cls -> is_Some (d !! name))
    /\ Field_unwrap (DocumentField (mkOptions true false None) cls) (VDict d)
         = Ok (VInstance (class_name cls) x).
Proof.
  intros Hlaw Hvalid Hset.
  destruct (roundtrip_valid cls x Hlaw Hvalid) as (d & Hwrap & Hunwrap).
  exists d. split; [done|]. split; [done|]. split.
  - unfold lawful_class in Hlaw. apply lawful_DocumentField in Hlaw as [Hnd Hlaw].
    intros name field Hin.
    pose proof (forallb_elem_of _ _ _ Hset Hin) as Hx. simpl in Hx.
    apply is_some_true in Hx as [v Hv].
    pose proof (valid_dict_slot _ _ _ _ _ Hvalid Hin) as Hs. simpl in Hs. rewrite Hv in Hs.
    destruct (Field_roundtrip field (Hlaw _ _ Hin) v Hs) as (w & Hw & _).
    exists w.
    rewrite (wrap_fields_lookup Field_wrap x (fields cls) Hnd ∅ d Hwrap name).
    by rewrite (get_field_NoDup _ _ _ Hnd Hin), Hv, Hw.
  - cbn [Field_unwrap]. unfold Document_unwrap in Hunwrap. by rewrite Hunwrap.
Qed.

Lemma unwrap_wrap_roundtrip_witness :
  exists d, Document_wrap Team core_team = Ok d
    /\ Document_unwrap Team d = Ok core_team
    /\ (forall name field, (name, field) ∈ fields Team -> is_Some (d !! name))
    /\ Field_unwrap (DocumentField (mkOptions true false None) Team) (VDict d)
         = Ok (VInstance (class_name Team) core_team).
Proof.
  apply (unwrap_wrap_roundtrip Team core_team).
  - assert (forall p, codec_lawful (mkCodec p p id id)) as Hid
      by (intros p v Hv; by split).
    unfold lawful_class. simpl.
    repeat match goal with
           | |- _ /\ _ => split
           | |- codec_lawful _ => apply Hid
           | |- NoDup _ => apply (bool_decide_unpack _); by vm_compute
           | |- True => exact I
           end.
  - reflexivity.
  - reflexivity.
Defined.


(** * Further properties of the document layer *)

(** ** Construction *)

Lemma forallb_false_elem {A : Type} (p : A -> bool) (l : list A) (x : A) :
  x ∈ l -> p x = false -> forallb p l = false.
Proof.
  intros Hin Hx. destruct (forallb p l) eqn:H; [|done].
  by rewrite (forallb_elem_of _ _ _ H Hin) in Hx.
Qed.

Lemma new_lookup (cls : DocClass) (kwargs : gmap string value) (self : obj) :
  unique_names cls -> new cls kwargs = Ok self ->
  forall name,
    self !! name =
      match get_field name (fields cls) with
      | Some f => assigned kwargs (name, f)
      | None => None
      end.
Proof.
  intros Hnd. unfold new, __init__.
  destruct (init_fields cls kwargs (fields cls) ∅) as [r self'] eqn:Hrun.
  destruct r as [[]|e]; [|discriminate].
  destruct (check_extra _ _); [|discriminate]. intros [= <-] name.
  rewrite (init_fields_lookup cls kwargs (fields cls) Hnd
             (fun n f H => get_field_NoDup _ _ _ Hnd H) _ _ Hrun name).
  rewrite lookup_empty. destruct (get_field name (fields cls)); [|done].
  by destruct (assigned kwargs _).
Qed.

(** X1. Construction succeeds exactly when no required, non-auto field lacks
    its keyword, every assigned value passes validation and every keyword
    names a declared field; the instance then holds, under each declared
    name, the keyword value, else the default of a field neither auto nor
    required, else nothing, and holds nothing under any other name. *)
Theorem construction_succeeds_iff (cls : DocClass) (kwargs : gmap string value) :
  unique_names cls ->
  is_ok (new cls kwargs)
    = none_missing cls kwargs && assignments_valid cls kwargs && keys_declared cls kwargs
  /\ forall self, new cls kwargs = Ok self ->
       forall name,
         self !! name =
           match get_field name (fields cls) with
           | Some f => assigned kwargs (name, f)
           | None => None
           end.
Proof.
  intros Hnd. split; [|intros self Hnew; by apply new_lookup].
  destruct (new_outcome cls kwargs Hnd)
    as [(self & -> & -> & -> & Hall)|[(k & -> & -> & -> & Hk & Hnone)
       |[(n & f & -> & Hin & Hmiss)|[-> ->]]]]; simpl.
  - symmetry. apply forallb_forall. intros k Hk.
    apply list_elem_of_In, kwargs_keys, Hall in Hk.
    by destruct (get_field k (fields cls)).
  - symmetry. apply (forallb_false_elem _ _ k); [by apply kwargs_keys|by rewrite Hnone].
  - unfold none_missing. rewrite (forallb_false_elem _ _ (n, f) Hin); [done|].
    by rewrite Hmiss.
  - by rewrite andb_false_r.
Qed.

Lemma construction_succeeds_iff_witness :
  is_ok (new Person {[ "name" := VStr "Ada" ]})
    = none_missing Person {[ "name" := VStr "Ada" ]}
      && assignments_valid Person {[ "name" := VStr "Ada" ]}
      && keys_declared Person {[ "name" := VStr "Ada" ]}
  /\ forall self, new Person {[ "name" := VStr "Ada" ]} = Ok self ->
       forall name,
         self !! name =
           match get_field name (fields Person) with
           | Some f => assigned {[ "name" := VStr "Ada" ]} (name, f)
           | None => None
           end.
Proof.
  apply (construction_succeeds_iff Person {[ "name" := VStr "Ada" ]}).
  unfold unique_names. apply (bool_decide_unpack _). by vm_compute.
Defined.

(** X2. Construction fails in three ways only, each naming a real culprit:
    MissingValueException for a declared required, non-auto field without a
    keyword; BadValueException when some assigned value fails validation;
    ExtraValueException for a keyword naming no declared field, and then
    only if the field loop found nothing to object to.  It never raises
    AttributeError. *)
Theorem construction_failures_classified
    (cls : DocClass) (kwargs : gmap string value) (e : exn) :
  unique_names cls ->
  new cls kwargs = Raise e ->
  (exists name field, e = MissingValueException name /\ (name, field) ∈ fields cls
      /\ kwargs !! name = None /\ auto (options field) = false
      /\ required (options field) = true)
  \/ (e = BadValueException /\ assignments_valid cls kwargs = false)
  \/ (exists k, e = ExtraValueException k /\ is_Some (kwargs !! k)
        /\ get_field k (fields cls) = None
        /\ none_missing cls kwargs = true /\ assignments_valid cls kwargs = true).
Proof.
  intros Hnd Hnew.
  destruct (new_outcome cls kwargs Hnd)
    as [(self & Hnew' & _)|[(k & Hnew' & Hm & Hv & Hk & Hnone)
       |[(n & f & Hnew' & Hin & Hmiss)|[Hnew' Hv]]]];
    rewrite Hnew' in Hnew; [discriminate|injection Hnew as <-..].
  - right. right. by exists k.
  - left. exists n, f. apply missing_required_true in Hmiss. tauto.
  - right. by left.
Qed.

Lemma construction_failures_classified_witness :
  (exists name field, ExtraValueException "nickname" = MissingValueException name
      /\ (name, field) ∈ fields Person
      /\ ({[ "name" := VStr "Ada"; "nickname" := VStr "A" ]} : gmap string value) !! name = None
      /\ auto (options field) = false /\ required (options field) = true)
  \/ (ExtraValueException "nickname" = BadValueException
      /\ assignments_valid Person {[ "name" := VStr "Ada"; "nickname" := VStr "A" ]} = false)
  \/ (exists k, ExtraValueException "nickname" = ExtraValueException k
        /\ is_Some (({[ "name" := VStr "Ada"; "nickname" := VStr "A" ]}
                       : gmap string value) !! k)
        /\ get_field k (fields Person) = None
        /\ none_missing Person {[ "name" := VStr "Ada"; "nickname" := VStr "A" ]} = true
        /\ assignments_valid Person {[ "name" := VStr "Ada"; "nickname" := VStr "A" ]} = true).
Proof.
  apply (construction_failures_classified Person
           {[ "name" := VStr "Ada"; "nickname" := VStr "A" ]}
           (ExtraValueException "nickname")).
  - unfold unique_names. apply (bool_decide_unpack _). by vm_compute.
  - reflexivity.
Defined.

(** X3. An instance the constructor returns from validly built values is
    validly built, and [wrap()] succeeds on it with an entry exactly for the
    attributes that are set. *)
Theorem constructed_instance_wraps
    (cls : DocClass) (kwargs : gmap string value) (self : obj) :
  unique_names cls ->
  assignments_built cls kwargs = true ->
  new cls kwargs = Ok self ->
  valid_instance cls self = true
  /\ exists d, Document_wrap cls self = Ok d
       /\ forall name, is_Some (d !! name) <-> is_Some (self !! name).
Proof.
  intros Hnd Hbuilt Hnew.
  assert (valid_instance cls self = true) as Hvalid.
  { apply (new_valid_instance cls kwargs self Hnd); [|done].
    intros n f v Hin Ha _. pose proof (forallb_elem_of _ _ _ Hbuilt Hin) as H.
    simpl in H. by rewrite Ha in H. }
  split; [done|].
  destruct (Document_wrap_lookup cls self Hnd (valid_instance_wraps cls self Hvalid))
    as (d & Hd & Hlook).
  exists d. split; [done|]. intros name. rewrite Hlook. split.
  - destruct (get_field name (fields cls)); [|by intros [? ?]].
    destruct (self !! name); [done|by intros [? ?]].
  - intros [v Hv]. destruct (valid_dict_dom _ _ _ name Hvalid) as [f Hf]; [by rewrite Hv|].
    rewrite Hf, Hv.
    destruct (valid_instance_wraps cls self Hvalid name f v (get_field_Some _ _ _ Hf) Hv)
      as [w ->]. done.
Qed.

Lemma constructed_instance_wraps_witness :
  valid_instance Team new_team = true
  /\ exists d, Document_wrap Team new_team = Ok d
       /\ forall name, is_Some (d !! name) <-> is_Some (new_team !! name).
Proof.
  apply (constructed_instance_wraps Team new_team new_team).
  - unfold unique_names. apply (bool_decide_unpack _). by vm_compute.
  - reflexivity.
  - reflexivity.
Defined.

(** ** Assignment and reading *)

(** X4. An assignment succeeds only on a declared field and a value its
    validation accepts; afterwards reading that name returns the value
    assigned, and reading any other name gives what it gave before. *)
Theorem assignment_then_read
    (cls : DocClass) (self self' : obj) (name : string) (v : value) :
  __setattr__ cls self name v = (Ok tt, self') ->
  (exists f, get_field name (fields cls) = Some f /\ is_valid_wrap f v = true)
  /\ self' = <[name := v]> self
  /\ __getattribute__ cls self' name = Ok (AValue v)
  /\ forall other, other <> name ->
       __getattribute__ cls self' other = __getattribute__ cls self other.
Proof.
  unfold __setattr__, validate_wrap.
  destruct (class_getattr cls name) as [[ |f| | ]|] eqn:Hattr; try discriminate.
  destruct (is_valid_wrap f v) eqn:Hv; [|discriminate]. intros [= <-].
  split; [exists f; split; [by apply class_getattr_AField|done]|].
  split; [done|]. unfold __getattribute__, object__getattribute__. split.
  - by rewrite lookup_insert_eq.
  - intros other Hne. by rewrite lookup_insert_ne.
Qed.

Lemma assignment_then_read_witness :
  (exists f, get_field "age" (fields Person) = Some f /\ is_valid_wrap f (VInt 37) = true)
  /\ <["age" := VInt 37]> ada = <["age" := VInt 37]> ada
  /\ __getattribute__ Person (<["age" := VInt 37]> ada) "age" = Ok (AValue (VInt 37))
  /\ forall other, other <> "age" ->
       __getattribute__ Person (<["age" := VInt 37]> ada) other
       = __getattribute__ Person ada other.
Proof.
  apply (assignment_then_read Person ada (<["age" := VInt 37]> ada) "age" (VInt 37)).
  reflexivity.
Defined.

(** X5. Assigning to a name that is not a declared field, be it unknown,
    the name of a method or the name of an Index attribute, raises
    AttributeError whatever the value, and leaves the instance as it was:
    an instance never gains an attribute outside its schema. *)
Theorem assignment_to_undeclared_name
    (cls : DocClass) (self : obj) (name : string) (v : value) :
  get_field name (fields cls) = None ->
  __setattr__ cls self name v = (Raise AttributeError, self).
Proof.
  intros Hf. unfold __setattr__, class_getattr. rewrite Hf.
  destruct (get_field name (indexes cls)); [done|].
  by destruct (existsb _ _).
Qed.

Lemma assignment_to_undeclared_name_witness :
  __setattr__ Team new_team "by_title" (VStr "x") = (Raise AttributeError, new_team)
  /\ __setattr__ Team new_team "wrap" (VStr "x") = (Raise AttributeError, new_team)
  /\ __setattr__ Team new_team "motto" (VStr "x") = (Raise AttributeError, new_team).
Proof.
  split; [|split].
  - apply (assignment_to_undeclared_name Team new_team "by_title" (VStr "x")). reflexivity.
  - apply (assignment_to_undeclared_name Team new_team "wrap" (VStr "x")). reflexivity.
  - apply (assignment_to_undeclared_name Team new_team "motto" (VStr "x")). reflexivity.
Defined.

(** X6. The validation gate keeps instances validly built: whatever an
    assignment does, succeed or raise, a validly built instance stays one,
    provided a nested instance passed in is validly built itself. *)
Theorem assignment_keeps_validity
    (cls : DocClass) (self self' : obj) (name : string) (v : value) (r : result unit) :
  unique_names cls ->
  valid_instance cls self = true ->
  (forall f, get_field name (fields cls) = Some f ->
     is_valid_wrap f v = true -> valid_value f v = true) ->
  __setattr__ cls self name v = (r, self') ->
  valid_instance cls self' = true.
Proof.
  intros Hnd Hvalid Hnested Hset.
  destruct (setattr_cases cls self name v) as [H|[H|H]];
    rewrite H in Hset; injection Hset as <- <-; [|done..].
  unfold __setattr__, validate_wrap in H.
  destruct (class_getattr cls name) as [[ |f| | ]|] eqn:Hattr; try discriminate.
  destruct (is_valid_wrap f v) eqn:Hv; [|discriminate].
  apply class_getattr_AField in Hattr. specialize (Hnested f Hattr Hv).
  unfold valid_instance, valid_dict. apply andb_true_intro. split.
  - apply forallb_forall. intros k Hk. apply list_elem_of_In, kwargs_keys in Hk.
    destruct (decide (k = name)) as [->|Hne]; [by rewrite Hattr|].
    rewrite lookup_insert_ne in Hk by done.
    by apply is_some_true, (valid_dict_dom _ _ _ k Hvalid).
  - apply forallb_forall. intros [n g] Hin. apply list_elem_of_In in Hin. simpl.
    destruct (decide (n = name)) as [->|Hne].
    + rewrite lookup_insert_eq.
      rewrite (get_field_NoDup _ _ _ Hnd Hin) in Hattr. by injection Hattr as ->.
    + rewrite lookup_insert_ne by done. apply (valid_dict_slot _ _ _ _ _ Hvalid Hin).
Qed.

Lemma assignment_keeps_validity_witness :
  valid_instance Team (<["lead" := VInstance "Person" {[ "name" := VStr "Bob"; "age" := VInt 0 ]}]> new_team)
  = true.
Proof.
  apply (assignment_keeps_validity Team new_team _ "lead"
           (VInstance "Person" {[ "name" := VStr "Bob"; "age" := VInt 0 ]}) (Ok tt)).
  - unfold unique_names. apply (bool_decide_unpack _). by vm_compute.
  - reflexivity.
  - intros f Hf _. vm_compute in Hf. injection Hf as <-. reflexivity.
  - reflexivity.
Defined.

(** ** Failures of wrap and unwrap *)

Lemma wrap_fields_raises (W : Field -> value -> result value) (self : obj)
    (fs : list (string * Field)) :
  forall res e, wrap_fields W self fs res = Raise e ->
    exists n f v, (n, f) ∈ fs /\ self !! n = Some v /\ W f v = Raise e.
Proof.
  induction fs as [|[n f] fs IH]; intros res e; cbn [wrap_fields]; [discriminate|].
  destruct (self !! n) as [v|] eqn:Hv.
  - destruct (W f v) as [w|e'] eqn:Hw; simpl.
    + intros Hrun. destruct (IH _ _ Hrun) as (n' & f' & v' & Hin & Hn & He).
      exists n', f', v'. split; [by right|done].
    + intros [= <-]. exists n, f, v. split; [left|done].
  - intros Hrun. destruct (IH _ _ Hrun) as (n' & f' & v' & Hin & Hn & He).
    exists n', f', v'. split; [by right|done].
Qed.

Lemma Field_wrap_raises (f : Field) :
  forall v e, Field_wrap f v = Raise e -> e = BadValueException.
Proof.
  induction f as [o c|o T IH] using Field_nested_ind; intros v e;
    cbn [Field_wrap]; unfold validate_wrap.
  - destruct (is_valid_wrap _ v); simpl; [discriminate|congruence].
  - destruct (is_valid_wrap _ v) eqn:Hv; simpl; [|congruence].
    destruct v as [ | | | | | |c self]; try discriminate.
    destruct (wrap_fields Field_wrap self (fields T) ∅) as [d|e'] eqn:Hrun;
      simpl; [discriminate|].
    intros [= <-].
    destruct (wrap_fields_raises _ _ _ _ _ Hrun) as (n & g & w & Hin & _ & He).
    by apply (IH n g Hin w).
Qed.

(** X7. Whatever goes wrong inside a field's [wrap] or [unwrap], at any
    depth of nesting, reaches the caller as BadValueException: an unknown
    key or a missing required field inside a nested stored document, or a
    nested value that is no dict at all, are reported that way; and
    [Document.wrap] fails with nothing else. *)
Theorem codec_failures_are_BadValue :
  (forall f v e, Field_wrap f v = Raise e -> e = BadValueException)
  /\ (forall f v e, Field_unwrap f v = Raise e -> e = BadValueException)
  /\ (forall cls self e, Document_wrap cls self = Raise e -> e = BadValueException)
  /\ Field_unwrap (DocumentField (mkOptions true false None) Person)
       (VDict {[ "name" := VStr "Ada"; "nickname" := VStr "A" ]})
     = Raise BadValueException
  /\ Field_unwrap (DocumentField (mkOptions true false None) Person)
       (VDict {[ "age" := VInt 36 ]})
     = Raise BadValueException
  /\ Field_unwrap (DocumentField (mkOptions true false None) Person) (VStr "Ada")
     = Raise BadValueException.
Proof.
  split; [intros f; apply Field_wrap_raises|].
  split; [apply Field_unwrap_raises|].
  split; [|repeat split; by vm_compute].
  intros cls self e Hrun.
  destruct (wrap_fields_raises _ _ _ _ _ Hrun) as (n & g & w & _ & _ & He).
  by apply (Field_wrap_raises g w).
Qed.

(** ** unwrap as construction *)

Lemma unwrapped_lookup (cls : DocClass) (o : gmap string value) (k : string) :
  unwrapped cls o !! k =
    match o !! k, get_field k (fields cls) with
    | Some v, Some f => match Field_unwrap f v with Ok u => Some u | Raise _ => None end
    | _, _ => None
    end.
Proof.
  unfold unwrapped. rewrite map_lookup_imap. destruct (o !! k); [|done]. simpl.
  by destruct (get_field k (fields cls)).
Qed.

Lemma unwrap_items_stored_ok (cls : DocClass) (o : gmap string value) :
  stored_ok cls o = true ->
  unwrap_items Field_unwrap (fields cls) (map_to_list o) ∅ = Ok (unwrapped cls o).
Proof.
  intros Hok.
  destruct (unwrap_items_fill Field_unwrap (fields cls) (unwrapped cls o) (map_to_list o))
    with (params := (∅ : obj)) as (p & Hrun & Hin & Hout).
  { intros k w Hkw. pose proof (forallb_elem_of _ _ _ Hok Hkw) as H. simpl in H.
    apply elem_of_map_to_list in Hkw.
    rewrite getattr_unwrap_get_field, unwrapped_lookup, Hkw.
    destruct (get_field k (fields cls)) as [f|]; [|done].
    destruct (Field_unwrap f w) as [u|]; [|done]. by exists u. }
  rewrite Hrun. f_equal. apply map_eq. intros k.
  destruct (decide (k ∈ (map_to_list o).*1)) as [Hk|Hk]; [by apply Hin|].
  rewrite (Hout k Hk), lookup_empty, unwrapped_lookup.
  destruct (o !! k) as [v|] eqn:Hv; [|done]. exfalso. apply Hk.
  apply list_elem_of_fmap. exists (k, v). split; [done|]. by apply elem_of_map_to_list.
Qed.

(** X9. When every stored key names a declared field that accepts its
    value, [Document.unwrap] is the constructor applied to the unwrapped
    values: the instance returned holds, under each declared name, the
    unwrapped stored value, else the default of a field neither auto nor
    required, else nothing. *)
Theorem unwrap_is_construction (cls : DocClass) (o : gmap string value) :
  unique_names cls ->
  stored_ok cls o = true ->
  Document_unwrap cls o = new cls (unwrapped cls o)
  /\ is_ok (Document_unwrap cls o)
     = none_missing cls (unwrapped cls o) && assignments_valid cls (unwrapped cls o)
  /\ forall self, Document_unwrap cls o = Ok self ->
       forall name,
         self !! name =
           match get_field name (fields cls) with
           | Some f => assigned (unwrapped cls o) (name, f)
           | None => None
           end.
Proof.
  intros Hnd Hok.
  assert (Document_unwrap cls o = new cls (unwrapped cls o)) as Heq.
  { unfold Document_unwrap, unwrap_with. by rewrite (unwrap_items_stored_ok cls o Hok). }
  split; [done|]. rewrite Heq. split; [|intros self Hnew; by apply new_lookup].
  destruct (new_outcome cls (unwrapped cls o) Hnd)
    as [(self & -> & -> & -> & _)|[(k & _ & _ & _ & Hk & Hnone)
       |[(n & f & -> & Hin & Hmiss)|[-> ->]]]]; simpl; try done.
  - exfalso. rewrite unwrapped_lookup, Hnone in Hk. destruct (o !! k); by destruct Hk.
  - unfold none_missing. rewrite (forallb_false_elem _ _ (n, f) Hin); [done|].
    by rewrite Hmiss.
  - by rewrite andb_false_r.
Qed.

Lemma unwrap_is_construction_witness :
  Document_unwrap Person {[ "name" := VStr "Ada" ]}
    = new Person (unwrapped Person {[ "name" := VStr "Ada" ]})
  /\ is_ok (Document_unwrap Person {[ "name" := VStr "Ada" ]})
     = none_missing Person (unwrapped Person {[ "name" := VStr "Ada" ]})
       && assignments_valid Person (unwrapped Person {[ "name" := VStr "Ada" ]})
  /\ forall self, Document_unwrap Person {[ "name" := VStr "Ada" ]} = Ok self ->
       forall name,
         self !! name =
           match get_field name (fields Person) with
           | Some f => assigned (unwrapped Person {[ "name" := VStr "Ada" ]}) (name, f)
           | None => None
           end.
Proof.
  apply (unwrap_is_construction Person {[ "name" := VStr "Ada" ]}).
  - unfold unique_names. apply (bool_decide_unpack _). by vm_compute.
  - reflexivity.
Defined.

(** X10. A stored document that lacks a required, non-auto field does not
    unwrap to a partial instance: when its keys are all declared and its
    values accepted, [Document.unwrap] raises MissingValueException. *)
Theorem unwrap_partial_document_raises_Missing
    (cls : DocClass) (o : gmap string value) (name : string) (field : Field) :
  unique_names cls ->
  stored_ok cls o = true ->
  assignments_valid cls (unwrapped cls o) = true ->
  (name, field) ∈ fields cls ->
  required (options field) = true ->
  auto (options field) = false ->
  o !! name = None ->
  exists n f, Document_unwrap cls o = Raise (MissingValueException n)
    /\ (n, f) ∈ fields cls /\ o !! n = None
    /\ required (options f) = true /\ auto (options f) = false.
Proof.
  intros Hnd Hok Hvalid Hin Hreq Hauto Ho.
  unfold Document_unwrap, unwrap_with. rewrite (unwrap_items_stored_ok cls o Hok). simpl.
  assert (forall n, unwrapped cls o !! n = None -> o !! n = None) as Hback.
  { intros n Hn. destruct (o !! n) as [v|] eqn:Hv; [|done]. exfalso.
    assert ((n, v) ∈ map_to_list o) as Hkv by (by apply elem_of_map_to_list).
    pose proof (forallb_elem_of _ _ _ Hok Hkv) as H. simpl in H.
    rewrite unwrapped_lookup, Hv in Hn.
    destruct (get_field n (fields cls)) as [g|]; [|done].
    by destruct (Field_unwrap g v). }
  assert (missing_required (unwrapped cls o) (name, field) = true) as Hmiss.
  { apply missing_required_true. by rewrite unwrapped_lookup, Ho. }
  destruct (new_outcome cls (unwrapped cls o) Hnd)
    as [(self & _ & Hm & _)|[(k & _ & Hm & _)
       |[(n & f & Hnew & Hnin & Hnmiss)|[_ Hv]]]]; [| | |congruence].
  - pose proof (forallb_elem_of _ _ _ Hm Hin) as H. simpl in H. by rewrite Hmiss in H.
  - pose proof (forallb_elem_of _ _ _ Hm Hin) as H. simpl in H. by rewrite Hmiss in H.
  - apply missing_required_true in Hnmiss as (Hn & Ha & Hr).
    exists n, f. repeat split; try done. by apply Hback.
Qed.

Lemma unwrap_partial_document_raises_Missing_witness :
  exists n f, Document_unwrap Person {[ "age" := VInt 36 ]} = Raise (MissingValueException n)
    /\ (n, f) ∈ fields Person
    /\ ({[ "age" := VInt 36 ]} : gmap string value) !! n = None
    /\ required (options f) = true /\ auto (options f) = false.
Proof.
  apply (unwrap_partial_document_raises_Missing Person {[ "age" := VInt 36 ]}
           "name" (StringField (mkOptions true false None))).
  - unfold unique_names. apply (bool_decide_unpack _). by vm_compute.
  - reflexivity.
  - reflexivity.
  - right. right. left.
  - reflexivity.
  - reflexivity.
  - reflexivity.
Defined.

(** ** What unwrap returns *)

Lemma well_formed_DocumentField (o : FieldOptions) (T : DocClass) :
  well_formed (DocumentField o T) ->
  NoDup (fields T).*1
  /\ forall n g, (n, g) ∈ fields T ->
       well_formed g
       /\ forall d, default (options g) = Some d ->
            is_valid_wrap g d = true -> valid_value g d = true.
Proof.
  destruct T as [cn fs coll ixs]. simpl. intros [Hnd Hall]. split; [done|].
  clear Hnd. induction fs as [|[n g] fs IH]; intros n' g' Hin.
  - by apply elem_of_nil in Hin.
  - destruct Hall as [[Hg Hd] Hall].
    apply elem_of_cons in Hin as [[= -> ->]|Hin]; [|by apply (IH Hall n' g')].
    split; [done|]. intros d Hdef. by rewrite Hdef in Hd.
Qed.

Lemma unwrap_items_values (U : Field -> value -> result value)
    (fs : list (string * Field)) (kvs : list (string * value)) :
  forall p0 p, unwrap_items U fs kvs p0 = Ok p ->
  forall k u, p !! k = Some u ->
    p0 !! k = Some u \/ exists f w, get_field k fs = Some f /\ U f w = Ok u.
Proof.
  induction kvs as [|[k0 w0] kvs IH]; intros p0 p; cbn [unwrap_items].
  - intros [= <-] k u Hk. by left.
  - rewrite getattr_unwrap_get_field.
    destruct (get_field k0 fs) as [f|] eqn:Hf; [|discriminate].
    destruct (U f w0) as [u0|e] eqn:Hu; [|discriminate]. simpl.
    intros Hrun k u Hk. destruct (IH _ _ Hrun k u Hk) as [Hin|Hin]; [|by right].
    destruct (decide (k = k0)) as [->|Hne].
    + rewrite lookup_insert_eq in Hin. injection Hin as <-. right. by exists f, w0.
    + left. by rewrite lookup_insert_ne in Hin.
Qed.

Lemma unwrap_with_valid (T : DocClass) (items : gmap string value) (self : obj) :
  unique_names T ->
  (forall n g, (n, g) ∈ fields T ->
     (forall v u, Field_unwrap g v = Ok u -> is_valid_wrap g u = true ->
        valid_value g u = true)
     /\ forall d, default (options g) = Some d ->
          is_valid_wrap g d = true -> valid_value g d = true) ->
  unwrap_with Field_unwrap T items = Ok self ->
  valid_instance T self = true.
Proof.
  intros Hnd Hfields. unfold unwrap_with.
  destruct (unwrap_items Field_unwrap (fields T) (map_to_list items) ∅) as [p|e] eqn:Hrun;
    [|discriminate]. simpl.
  apply (new_valid_instance T p self Hnd).
  intros n f v Hin Ha Hv. destruct (Hfields n f Hin) as [Hun Hdef].
  unfold assigned in Ha. simpl in Ha.
  destruct (p !! n) as [v'|] eqn:Hp.
  - injection Ha as ->.
    destruct (unwrap_items_values _ _ _ _ _ Hrun n v Hp) as [H|(f' & w & Hf' & Hu)].
    + by rewrite lookup_empty in H.
    + rewrite (get_field_NoDup _ _ _ Hnd Hin) in Hf'. injection Hf' as <-.
      by apply (Hun w v).
  - destruct (auto (options f)); [discriminate|].
    destruct (required (options f)); [discriminate|]. by apply Hdef.
Qed.

Lemma Field_unwrap_valid (f : Field) :
  well_formed f ->
  forall v u, Field_unwrap f v = Ok u -> is_valid_wrap f u = true ->
    valid_value f u = true.
Proof.
  induction f as [o c|o T IH] using Field_nested_ind; intros Hwf v u Hu Hv; [done|].
  apply well_formed_DocumentField in Hwf as [Hnd Hwf].
  cbn [Field_unwrap] in Hu. cbv zeta in Hu.
  destruct v as [ | | | | |items| ]; try discriminate.
  destruct (unwrap_with Field_unwrap T items) as [self|e] eqn:Hrun; [|discriminate].
  simpl in Hu. injection Hu as <-. simpl. rewrite String.eqb_refl. simpl.
  apply (unwrap_with_valid T items self Hnd); [|done].
  intros n g Hin. destruct (Hwf n g Hin) as [Hg Hd]. split; [|done].
  by apply (IH n g Hin).
Qed.

(** X11. Whatever [Document.unwrap] returns is a validly built instance,
    nested documents included, and so can be wrapped again; no contract on
    the leaf codecs is needed for that, the constructor's validation
    suffices. *)
Theorem unwrapped_instance_is_valid
    (cls : DocClass) (o : gmap string value) (self : obj) :
  well_formed_class cls ->
  Document_unwrap cls o = Ok self ->
  valid_instance cls self = true
  /\ exists d, Document_wrap cls self = Ok d
       /\ forall name, is_Some (d !! name) <-> is_Some (self !! name).
Proof.
  intros Hwf Hun. unfold well_formed_class in Hwf.
  apply well_formed_DocumentField in Hwf as [Hnd Hwf].
  assert (valid_instance cls self = true) as Hvalid.
  { apply (unwrap_with_valid cls o self Hnd); [|done].
    intros n g Hin. destruct (Hwf n g Hin) as [Hg Hd]. split; [|done].
    by apply Field_unwrap_valid. }
  split; [done|].
  destruct (Document_wrap_lookup cls self Hnd (valid_instance_wraps cls self Hvalid))
    as (d & Hd & Hlook).
  exists d. split; [done|]. intros name. rewrite Hlook. split.
  - destruct (get_field name (fields cls)); [|by intros [? ?]].
    destruct (self !! name); [done|by intros [? ?]].
  - intros [v Hv]. destruct (valid_dict_dom _ _ _ name Hvalid) as [f Hf]; [by rewrite Hv|].
    rewrite Hf, Hv.
    destruct (valid_instance_wraps cls self Hvalid name f v (get_field_Some _ _ _ Hf) Hv)
      as [w ->]. done.
Qed.

Lemma unwrapped_instance_is_valid_witness :
  valid_instance Team new_team = true
  /\ exists d, Document_wrap Team new_team = Ok d
       /\ forall name, is_Some (d !! name) <-> is_Some (new_team !! name).
Proof.
  apply (unwrapped_instance_is_valid Team
           {[ "title" := VStr "core";
              "lead" := VDict {[ "name" := VStr "Ada"; "age" := VInt 36 ]} ]}
           new_team).
  - unfold well_formed_class. simpl.
    repeat match goal with
           | |- _ /\ _ => split
           | |- NoDup _ => apply (bool_decide_unpack _); by vm_compute
           | |- True => exact I
           | |- _ -> _ => intros _; reflexivity
           end.
  - reflexivity.
Defined.

(** ** More on commit *)

Lemma ensure_all_tried (respond : list call -> call -> result value)
    (collection : string) (ixs : list Index) :
  forall db r db1, ensure_all respond ixs collection db = (r, db1) ->
    exists tried, tried `prefix_of` ixs
      /\ db1 = db ++ map (ensure_call collection) tried
      /\ (r = Ok tt -> tried = ixs).
Proof.
  induction ixs as [|ix ixs IH]; intros db r db1; cbn [ensure_all].
  - intros [= <- <-]. exists []. split; [done|]. by rewrite app_nil_r.
  - unfold ensure, invoke.
    destruct (respond db _) as [u|e].
    + intros Hrun. destruct (IH _ _ _ Hrun) as (tried & Hpre & -> & Hall).
      exists (ix :: tried). split; [by apply prefix_cons|].
      split; [by rewrite <- app_assoc|]. intros Hr. by rewrite (Hall Hr).
    + intros [= <- <-]. exists [ix]. split; [|done].
      apply prefix_cons, prefix_nil.
Qed.



(** X13. However [commit] ends, the store's history only grows, by index
    calls for a prefix of the declared indexes and then at most one [save],
    which comes only after every index call was made; every call is on the
    collection the class resolves to; and the instance differs from what it
    was at most in [_id]. *)
Theorem commit_frame (respond : list call -> call -> result value)
    (cls : DocClass) (self self' : obj) (db db' : list call) (r : result unit) :
  commit respond cls self db = (r, (self', db')) ->
  (exists tried saves,
      db' = db ++ map (ensure_call (get_collection_name cls)) tried ++ saves
      /\ tried `prefix_of` get_indexes cls
      /\ (saves = []
          \/ exists doc, Document_wrap cls self = Ok doc
               /\ saves = [Save (get_collection_name cls) doc]
               /\ tried = get_indexes cls))
  /\ Forall (fun c => call_collection c = get_collection_name cls) (drop (length db) db')
  /\ forall name, name <> "_id" -> self' !! name = self !! name.
Proof.
  intros Hrun.
  assert (exists tried saves,
      db' = db ++ map (ensure_call (get_collection_name cls)) tried ++ saves
      /\ tried `prefix_of` get_indexes cls
      /\ (saves = []
          \/ exists doc, Document_wrap cls self = Ok doc
               /\ saves = [Save (get_collection_name cls) doc]
               /\ tried = get_indexes cls)
      /\ forall name, name <> "_id" -> self' !! name = self !! name)
    as (tried & saves & Hdb & Hpre & Hsaves & Hself).
  { unfold commit in Hrun.
    destruct (ensure_all respond (get_indexes cls) (get_collection_name cls) db)
      as [r1 db1] eqn:Hens.
    destruct (ensure_all_tried _ _ _ _ _ _ Hens) as (tried & Hpre & -> & Hall).
    destruct r1 as [[]|e1].
    - rewrite (Hall eq_refl) in *.
      destruct (Document_wrap cls self) as [doc|e2] eqn:Hwrap.
      + unfold invoke in Hrun.
        destruct (respond _ (Save _ doc)) as [id|e3].
        * destruct (__setattr__ cls self "_id" id) as [r2 self2] eqn:Hset.
          injection Hrun as <- <- <-.
          exists (get_indexes cls), [Save (get_collection_name cls) doc].
          split; [by rewrite <- app_assoc|]. split; [done|].
          split; [right; by exists doc|].
          intros name Hne. by apply (setattr_other _ _ _ _ _ _ _ (not_eq_sym Hne) Hset).
        * injection Hrun as <- <- <-.
          exists (get_indexes cls), [Save (get_collection_name cls) doc].
          split; [by rewrite <- app_assoc|]. split; [done|].
          split; [right; by exists doc|done].
      + injection Hrun as <- <- <-. exists (get_indexes cls), [].
        rewrite app_nil_r. split; [done|]. split; [done|]. split; [by left|done].
    - injection Hrun as <- <- <-. exists tried, [].
      rewrite app_nil_r. split; [done|]. split; [done|]. split; [by left|done]. }
  split; [by exists tried, saves|]. split; [|done].
  rewrite Hdb, drop_app_length. apply Forall_app. split.
  - apply Forall_forall. intros c Hc. apply list_elem_of_fmap in Hc as (ix & -> & _). done.
  - destruct Hsaves as [->|(doc & _ & -> & _)]; [done|]. by apply Forall_singleton.
Qed.

Lemma commit_frame_witness :
  (exists tried saves,
      [ EnsureIndex "teams" [("lead", DESCENDING); ("title", ASCENDING)] false false;
        EnsureIndex "teams" [("title", ASCENDING)] true false ]
      = [] ++ map (ensure_call (get_collection_name Team)) tried ++ saves
      /\ tried `prefix_of` get_indexes Team
      /\ (saves = []
          \/ exists doc, Document_wrap Team new_team = Ok doc
               /\ saves = [Save (get_collection_name Team) doc]
               /\ tried = get_indexes Team))
  /\ Forall (fun c => call_collection c = get_collection_name Team)
       (drop (length ([] : list call))
          [ EnsureIndex "teams" [("lead", DESCENDING); ("title", ASCENDING)] false false;
            EnsureIndex "teams" [("title", ASCENDING)] true false ])
  /\ forall name, name <> "_id" -> new_team !! name = new_team !! name.
Proof.
  apply (commit_frame no_unique Team new_team new_team [] _ (Raise (CollectionError 85))).
  reflexivity.
Defined.

Lemma wrap_fields_ok_inv (W : Field -> value -> result value) (self : obj)
    (fs : list (string * Field)) :
  forall res d, wrap_fields W self fs res = Ok d ->
  forall n f v, (n, f) ∈ fs -> self !! n = Some v -> exists w, W f v = Ok w.
Proof.
  induction fs as [|[n0 f0] fs IH]; intros res d Hrun n f v Hin Hv.
  - by apply elem_of_nil in Hin.
  - cbn [wrap_fields] in Hrun. apply elem_of_cons in Hin as [[= -> ->]|Hin].
    + rewrite Hv in Hrun. destruct (W f0 v) as [w|]; [by exists w|discriminate].
    + destruct (self !! n0) as [v0|]; [|by apply (IH _ _ Hrun n f v)].
      destruct (W f0 v0); [|discriminate]. by apply (IH _ _ Hrun n f v).
Qed.

Lemma setattr_Ok_inv (cls : DocClass) (self self' : obj) (name : string) (v : value) :
  __setattr__ cls self name v = (Ok tt, self') ->
  self' = <[name := v]> self
  /\ exists f, get_field name (fields cls) = Some f /\ is_valid_wrap f v = true.
Proof.
  unfold __setattr__, validate_wrap.
  destruct (class_getattr cls name) as [[ |f| | ]|] eqn:Hattr; try discriminate.
  destruct (is_valid_wrap f v) eqn:Hv; [|discriminate]. intros [= <-].
  split; [done|]. exists f. split; [by apply class_getattr_AField|done].
Qed.

(** X14. After a successful [commit] the instance carries the identifier
    the store returned, every index call and the [save] of the old [wrap()]
    were made, and wrapping the instance again gives the same document with
    the identifier under [_id]: a second commit saves under that
    identifier. *)
Theorem commit_records_id (respond : list call -> call -> result value)
    (cls : DocClass) (self self' : obj) (db db' : list call) :
  unique_names cls ->
  commit respond cls self db = (Ok tt, (self', db')) ->
  exists doc id f,
    Document_wrap cls self = Ok doc
    /\ db' = db ++ map (ensure_call (get_collection_name cls)) (get_indexes cls)
               ++ [Save (get_collection_name cls) doc]
    /\ respond (db ++ map (ensure_call (get_collection_name cls)) (get_indexes cls))
         (Save (get_collection_name cls) doc) = Ok id
    /\ get_field "_id" (fields cls) = Some f
    /\ is_valid_wrap f id = true
    /\ self' = <["_id" := id]> self
    /\ forall w, Field_wrap f id = Ok w ->
         Document_wrap cls self' = Ok (<["_id" := w]> doc).
Proof.
  intros Hnd Hrun. unfold commit in Hrun.
  destruct (ensure_all respond (get_indexes cls) (get_collection_name cls) db)
    as [r1 db1] eqn:Hens.
  destruct r1 as [[]|e1]; [|discriminate].
  apply ensure_all_log in Hens as ->.
  destruct (Document_wrap cls self) as [doc|e2] eqn:Hwrap; [|discriminate].
  unfold invoke in Hrun.
  destruct (respond _ (Save _ doc)) as [id|e3] eqn:Hsave; [|discriminate].
  destruct (__setattr__ cls self "_id" id) as [r2 self2] eqn:Hset.
  injection Hrun as -> <- <-.
  apply setattr_Ok_inv in Hset as [-> (f & Hf & Hv)].
  exists doc, id, f. split; [done|]. split; [by rewrite <- app_assoc|].
  split; [done|]. split; [done|]. split; [done|]. split; [done|].
  intros w Hw.
  pose proof (get_field_Some _ _ _ Hf) as Hfin.
  destruct (Document_wrap_lookup cls (<["_id" := id]> self) Hnd) as (d' & Hd' & Hlook').
  { intros name field v Hin Hname. destruct (decide (name = "_id")) as [->|Hne].
    - rewrite lookup_insert_eq in Hname. injection Hname as <-.
      rewrite (get_field_NoDup _ _ _ Hnd Hin) in Hf. injection Hf as ->. by exists w.
    - rewrite lookup_insert_ne in Hname by done.
      by apply (wrap_fields_ok_inv _ _ _ _ _ Hwrap name field v). }
  rewrite Hd'. f_equal. apply map_eq. intros name. rewrite Hlook'.
  pose proof (wrap_fields_lookup Field_wrap self (fields cls) Hnd ∅ doc Hwrap name) as Hlook.
  destruct (decide (name = "_id")) as [->|Hne].
  - by rewrite !lookup_insert_eq, Hf, Hw.
  - rewrite !lookup_insert_ne by done. rewrite Hlook, lookup_empty.
    destruct (get_field name (fields cls)); [|done]. by destruct (self !! name).
Qed.

Lemma commit_records_id_witness :
  exists doc id f,
    Document_wrap Team new_team = Ok doc
    /\ [ EnsureIndex "teams" [("lead", DESCENDING); ("title", ASCENDING)] false false;
         EnsureIndex "teams" [("title", ASCENDING)] true false;
         Save "teams" {[ "title" := VStr "core";
                         "lead" := VDict {[ "name" := VStr "Ada"; "age" := VInt 36 ]} ]} ]
       = [] ++ map (ensure_call (get_collection_name Team)) (get_indexes Team)
            ++ [Save (get_collection_name Team) doc]
    /\ accepting ([] ++ map (ensure_call (get_collection_name Team)) (get_indexes Team))
         (Save (get_collection_name Team) doc) = Ok id
    /\ get_field "_id" (fields Team) = Some f
    /\ is_valid_wrap f id = true
    /\ <["_id" := VObjectId 2]> new_team = <["_id" := id]> new_team
    /\ forall w, Field_wrap f id = Ok w ->
         Document_wrap Team (<["_id" := VObjectId 2]> new_team) = Ok (<["_id" := w]> doc).
Proof.
  apply (commit_records_id accepting Team new_team (<["_id" := VObjectId 2]> new_team) []).
  - unfold unique_names. apply (bool_decide_unpack _). by vm_compute.
  - reflexivity.
Defined.

(** ** More on the Index builder *)

Lemma call_fluent_other (c : fluent) (self other : nat) (h : heap) :
  other <> self ->
  fst (call_fluent c self h) = self /\ snd (call_fluent c self h) !! other = h !! other.
Proof.
  intros Hne. destruct c; simpl; (split; [done|]); by apply lookup_alter_ne.
Qed.

(** X15. Fluent calls on one Index leave every other Index of the store as
    it was, and always hand back the object they were called on. *)
Theorem fluent_calls_frame (cs : list fluent) (self other : nat) (h : heap) :
  other <> self ->
  fst (chain cs self h) = self /\ snd (chain cs self h) !! other = h !! other.
Proof.
  intros Hne. revert h. induction cs as [|c cs IH]; intros h; [done|].
  cbn [chain]. destruct (call_fluent c self h) as [r h'] eqn:Hc.
  destruct (call_fluent_other c self other h Hne) as [Hr Hh].
  rewrite Hc in Hr, Hh. simpl in Hr, Hh. subst r.
  destruct (IH h') as [Hf Hs]. by rewrite Hf, Hs.
Qed.

Lemma fluent_calls_frame_witness :
  fst (chain [Ascending "a"; Unique true] 0
         {[ 0 := mkIndex [] false false; 1 := mkIndex [("z", DESCENDING)] false false ]}) = 0
  /\ snd (chain [Ascending "a"; Unique true] 0
          {[ 0 := mkIndex [] false false; 1 := mkIndex [("z", DESCENDING)] false false ]})
       !! 1
     = ({[ 0 := mkIndex [] false false; 1 := mkIndex [("z", DESCENDING)] false false ]}
          : heap) !! 1.
Proof.
  apply (fluent_calls_frame [Ascending "a"; Unique true] 0 1). lia.
Defined.

Lemma unique_after_true (cs : list fluent) : unique_after cs true = true.
Proof. induction cs as [|[]]; simpl; auto. Qed.

Lemma chain_app (cs1 cs2 : list fluent) (self : nat) (h : heap) :
  chain (cs1 ++ cs2) self h
  = chain cs2 (fst (chain cs1 self h)) (snd (chain cs1 self h)).
Proof.
  revert self h. induction cs1 as [|c cs1 IH]; intros self h; [done|].
  simpl. destruct (call_fluent c self h) as [r h']. apply IH.
Qed.

(** X16. On any Index, fresh or not, a chain of fluent calls only ever adds:
    the components it had stay in front, in order, followed by one
    component per [ascending]/[descending] call (the same name may come
    twice); once unique, the index stays unique; and a chain made in two
    parts is the second part made on what the first returned. *)
Theorem fluent_calls_accumulate (cs : list fluent) (self : nat) (h : heap) (ix : Index) :
  h !! self = Some ix ->
  exists ix', snd (chain cs self h) !! self = Some ix'
    /\ components ix' = components ix ++ flat_map component_of cs
    /\ components ix `prefix_of` components ix'
    /\ (__unique ix = true -> __unique ix' = true)
    /\ forall cs1 cs2, cs = cs1 ++ cs2 ->
         chain cs self h = chain cs2 (fst (chain cs1 self h)) (snd (chain cs1 self h)).
Proof.
  intros Hix. rewrite (chain_Some cs self h ix Hix). simpl.
  eexists. split; [apply lookup_insert_eq|]. simpl.
  split; [done|]. split; [by apply prefix_app_r|]. split.
  - intros ->. apply unique_after_true.
  - intros cs1 cs2 ->. rewrite <- (chain_Some (cs1 ++ cs2) self h ix Hix).
    apply chain_app.
Qed.

Lemma fluent_calls_accumulate_witness :
  exists ix',
    snd (chain [Ascending "a"; Ascending "a"] 0
           {[ 0 := mkIndex [("z", DESCENDING)] true false ]}) !! 0 = Some ix'
    /\ components ix'
       = components (mkIndex [("z", DESCENDING)] true false)
         ++ flat_map component_of [Ascending "a"; Ascending "a"]
    /\ components (mkIndex [("z", DESCENDING)] true false) `prefix_of` components ix'
    /\ (__unique (mkIndex [("z", DESCENDING)] true false) = true -> __unique ix' = true)
    /\ forall cs1 cs2, [Ascending "a"; Ascending "a"] = cs1 ++ cs2 ->
         chain [Ascending "a"; Ascending "a"] 0 {[ 0 := mkIndex [("z", DESCENDING)] true false ]}
         = chain cs2
             (fst (chain cs1 0 {[ 0 := mkIndex [("z", DESCENDING)] true false ]}))
             (snd (chain cs1 0 {[ 0 := mkIndex [("z", DESCENDING)] true false ]})).
Proof.
  apply (fluent_calls_accumulate [Ascending "a"; Ascending "a"] 0
           {[ 0 := mkIndex [("z", DESCENDING)] true false ]}
           (mkIndex [("z", DESCENDING)] true false)).
  reflexivity.
Defined.

(** X17. [ensure] on an Index built by a chain of fluent calls sends the
    collection one [ensure_index] call carrying the components in call
    order and the flags as the chain left them, fails exactly when that
    call does, and otherwise hands the Index back.  There is no guard on
    the component list: a fresh Index sends an empty one, and
    BadIndexException comes from the collection or not at all. *)
Theorem ensure_sends_what_was_built (respond : list call -> call -> result value)
    (h : heap) (cs : list fluent) (collection : string) (db : list call) :
  let self := fst (Index__init__ h) in
  let h1 := snd (chain cs self (snd (Index__init__ h))) in
  let c := EnsureIndex collection (flat_map component_of cs)
             (unique_after cs false) (drop_dups_after cs false) in
  ensure_at respond self collection h1 db
    = (match respond db c with Ok _ => Ok self | Raise e => Raise e end, db ++ [c])
  /\ ensure_at respond self collection (snd (Index__init__ h)) db
     = (match respond db (EnsureIndex collection [] false false) with
        | Ok _ => Ok self
        | Raise e => Raise e
        end, db ++ [EnsureIndex collection [] false false])
  /\ (respond db c <> Raise BadIndexException ->
      fst (ensure_at respond self collection h1 db) <> Raise BadIndexException).
Proof.
  intros self h1 c.
  assert (snd (Index__init__ h) !! self = Some (mkIndex [] false false)) as H0
    by apply lookup_insert_eq.
  assert (ensure_at respond self collection h1 db
          = (match respond db c with Ok _ => Ok self | Raise e => Raise e end, db ++ [c]))
    as Hens.
  { unfold ensure_at, h1. rewrite (chain_Some cs self _ _ H0). simpl.
    rewrite lookup_insert_eq. unfold ensure, invoke. simpl. fold c.
    by destruct (respond db c). }
  split; [done|]. split.
  - unfold ensure_at. rewrite H0. unfold ensure, invoke. simpl.
    by destruct (respond db (EnsureIndex collection [] false false)).
  - intros Hne. rewrite Hens. simpl. destruct (respond db c); [done|]. congruence.
Qed.
